(** * split-lines.py: clipboard chunker

    A shallow embedding of [split_chinked_lines] and the properties of its
    chunk loop.  Python strings are lists of characters, Python integers
    are [Z]; the open file, the clipboard, the console and the clock are
    gathered in an explicit [world] that every call threads through. *)

From Stdlib Require Import List ZArith Lia Bool Ascii String.
Import ListNotations.
Local Open Scope Z_scope.

(* [String] is loaded for string literals only; [length] is the one of lists. *)
Abbreviation length := Datatypes.length.

(** ** Python primitives used by the script *)

Module Py.

(** A [str] is a sequence of characters. *)
Definition str := list ascii.

Definition newline : ascii := "010"%char.

Definition lit (s : string) : str := list_ascii_of_string s.

(** [len(s)] *)
Definition len (s : str) : Z := Z.of_nat (length s).

(** [s.rfind(c)]: the highest index at which [c] occurs, [-1] if none. *)
Fixpoint rfind (s : str) (c : ascii) : Z :=
  match s with
  | [] => -1
  | x :: t =>
      let r := rfind t c in
      if 0 <=? r then r + 1
      else if Ascii.eqb x c then 0 else -1
  end.

(** [s[i:]]: a negative start counts from the end, and any start is
    clamped to the bounds of [s]. *)
Definition slice_from (s : str) (i : Z) : str :=
  let start := if i <? 0 then Z.max 0 (len s + i) else i in
  skipn (Z.to_nat start) s.

(** [not s] on a string *)
Definition falsy (s : str) : bool :=
  match s with [] => true | _ :: _ => false end.

(** [f.read(size)] on a text file whose unread part is [unread]: a
    negative size reads up to the end of the file, otherwise at most
    [size] characters are returned; the second component is what stays
    unread. *)
Definition read (size : Z) (unread : str) : str * str :=
  if size <? 0 then (unread, [])
  else (firstn (Z.to_nat size) unread, skipn (Z.to_nat size) unread).

End Py.

Import Py.

(** ** The world the script acts on *)

(** What the script does to its surroundings, in the order it does it. *)
Inductive event : Type :=
| Read (size : Z)          (* f.read(size) *)
| Copy (text : str)        (* pyperclip.copy(text) *)
| Print (text : str)       (* print(text) *)
| Sleep (secs : Z).        (* time.sleep(secs) *)

(** [unread] is the part of the open file after the read position,
    [clock] a clock that only [time.sleep] advances, and [log] the events
    so far, oldest first, each stamped with the clock at its start. *)
Record world : Type := mkWorld {
  unread : str;
  clock : Z;
  log : list (Z * event)
}.

(** Computations that act on the world. *)
Definition IO (A : Type) : Type := world -> A * world.

Definition ret {A} (a : A) : IO A := fun w => (a, w).

Definition bind {A B} (m : IO A) (k : A -> IO B) : IO B :=
  fun w => let (a, w') := m w in k a w'.

Notation "x <- m ;; k" := (bind m (fun x => k))
  (at level 61, m at next level, right associativity).
Notation "m ;; k" := (bind m (fun _ => k))
  (at level 61, right associativity).

Definition record (e : event) (w : world) : world :=
  mkWorld (unread w) (clock w) (log w ++ [(clock w, e)]).

Definition f_read (size : Z) : IO str :=
  fun w =>
    let (data, rest) := read size (unread w) in
    let w1 := record (Read size) w in
    (data, mkWorld rest (clock w1) (log w1)).

Definition pyperclip_copy (text : str) : IO unit :=
  fun w => (tt, record (Copy text) w).

Definition print (text : str) : IO unit :=
  fun w => (tt, record (Print text) w).

Definition time_sleep (secs : Z) : IO unit :=
  fun w =>
    let w1 := record (Sleep secs) w in
    (tt, mkWorld (unread w1) (clock w1 + secs) (log w1)).

(** ** The script *)

(** The f-string [f"```ansi {chunk}```"]. *)
Definition decoration_prefix : str := lit "```ansi ".
Definition decoration_suffix : str := lit "```".

Definition decorate (chunk : str) : str :=
  decoration_prefix ++ chunk ++ decoration_suffix.

Definition copied_message : str := lit "copied chunk to clipboard".

(** The default of the [chunk_size] argument. *)
Definition default_chunk_size : Z := 2000 - 11.

(** One pass through the body of [while True].  [None] is [break];
    [Some p] carries the value of [prepend] into the next pass. *)
Definition body (chunk_size : Z) (prepend : str) : IO (option str) :=
  data <- f_read (chunk_size - len prepend) ;;
  let chunk := prepend ++ data in
  if falsy chunk then ret None
  else
    pyperclip_copy (decorate chunk) ;;
    print copied_message ;;
    time_sleep 3 ;;
    ret (Some (slice_from chunk (rfind chunk newline + 1))).

(** How far the loop has got: it has left through [break], or it is about
    to start another pass with the given [prepend]. *)
Inductive outcome : Type :=
| Returned (w : world)
| Running (prepend : str) (w : world).

(** [while True], run for at most [fuel] passes. *)
Fixpoint while_true (fuel : nat) (chunk_size : Z) (prepend : str) (w : world)
  : outcome :=
  match fuel with
  | O => Running prepend w
  | S fuel' =>
      match body chunk_size prepend w with
      | (None, w') => Returned w'
      | (Some prepend', w') => while_true fuel' chunk_size prepend' w'
      end
  end.

(** The world in which the file has just been opened; [file] is the text
    stored under the path given to the script. *)
Definition opened (file : str) : world := mkWorld file 0 [].

(** [split_chinked_lines(file, chunk_size)], its loop run for at most
    [fuel] passes.  The list [chunks] of the script is never used. *)
Definition split_chinked_lines (fuel : nat) (file : str) (chunk_size : Z)
  : outcome :=
  while_true fuel chunk_size [] (opened file).

(** ** Observations on a run *)

Definition world_of (o : outcome) : world :=
  match o with Returned w => w | Running _ w => w end.

Definition returned (o : outcome) : bool :=
  match o with Returned _ => true | Running _ _ => false end.

(** The texts handed to the clipboard, oldest first. *)
Fixpoint copies (l : list (Z * event)) : list str :=
  match l with
  | [] => []
  | (_, Copy text) :: l' => text :: copies l'
  | _ :: l' => copies l'
  end.

(** The clock readings at which the clipboard was written. *)
Fixpoint copy_times (l : list (Z * event)) : list Z :=
  match l with
  | [] => []
  | (t, Copy _) :: l' => t :: copy_times l'
  | _ :: l' => copy_times l'
  end.

(** The sizes asked of [f.read], oldest first. *)
Fixpoint read_sizes (l : list (Z * event)) : list Z :=
  match l with
  | [] => []
  | (_, Read n) :: l' => n :: read_sizes l'
  | _ :: l' => read_sizes l'
  end.

(** A clipboard text without its decoration. *)
Definition undecorate (text : str) : str :=
  let inner := skipn (length decoration_prefix) text in
  firstn (length inner - length decoration_suffix) inner.

(** The undecorated chunks handed to the clipboard so far. *)
Definition emitted (w : world) : list str := map undecorate (copies (log w)).

(** The trailing partial line of a chunk, as the loop computes it. *)
Definition carry_of (chunk : str) : str :=
  slice_from chunk (rfind chunk newline + 1).

(** The chunks put end to end, each one after the first without the
    carry-over that leads it; [carry] is the carry-over of the first chunk
    of the list. *)
Fixpoint reassemble_from (carry : str) (chunks : list str) : str :=
  match chunks with
  | [] => []
  | c :: rest => skipn (length carry) c ++ reassemble_from (carry_of c) rest
  end.

Definition reassemble (chunks : list str) : str := reassemble_from [] chunks.

(** The lines of a text, without their newline characters, as
    [s.split('\n')] gives them. *)
Fixpoint lines (s : str) : list str :=
  match s with
  | [] => [[]]
  | c :: t =>
      if Ascii.eqb c newline then [] :: lines t
      else match lines t with
           | l :: ls => (c :: l) :: ls
           | [] => [[c]]
           end
  end.

Definition has_newline (s : str) : bool := existsb (Ascii.eqb newline) s.

(** Every line of [s] is shorter than [n]. *)
Definition lines_shorter (n : Z) (s : str) : bool :=
  forallb (fun l => len l <? n) (lines s).

(** The events of one pass that hands [chunk] to the clipboard, after a
    read of [size] characters. *)
Definition pass_events (size : Z) (chunk : str) : list event :=
  [Read size; Copy (decorate chunk); Print copied_message; Sleep 3].

(** [s.endswith('\n')] *)
Definition endswith_newline (s : str) : bool :=
  match rev s with
  | c :: _ => Ascii.eqb c newline
  | [] => false
  end.

(** The log entries of the events [es], all stamped [t]. *)
Definition stamped (t : Z) (es : list event) : list (Z * event) :=
  map (pair t) es.

(** The file of the scenario: [a], [b] and [c], a newline after each. *)
Definition abc_lines : str :=
  lit "a" ++ [newline] ++ lit "b" ++ [newline] ++ lit "c" ++ [newline].

(** The carry after the chunks [chunks], [carry] being the one before
    them. *)
Definition carry_after (carry : str) (chunks : list str) : str :=
  fold_left (fun _ c => carry_of c) chunks carry.

(** The loop variable and the world agree with the file [file]: what has
    been put together from the chunks and what is still unread make up the
    file, and [prepend] is the trailing partial line of the former. *)
Definition tracks (file : str) (prepend : str) (w : world) : Prop :=
  reassemble (emitted w) ++ unread w = file /\
  prepend = carry_of (reassemble (emitted w)) /\
  prepend = carry_after [] (emitted w).

(** A log in which every clipboard write is followed by the console
    message and a pause of 3, both started at the same clock reading, and
    by nothing else before the clock has advanced by 3. *)
Fixpoint paced (l : list (Z * event)) : Prop :=
  match l with
  | [] => True
  | (t, Copy _) :: rest =>
      (exists later,
          rest = (t, Print copied_message) :: (t, Sleep 3) :: later /\
          Forall (fun te => t + 3 <= fst te) later) /\
      paced rest
  | _ :: rest => paced rest
  end.

(** A text [pre] after which a new line begins: nothing, or a text that
    ends with a newline. *)
Definition at_line_start (pre : str) : Prop :=
  pre = [] \/ endswith_newline pre = true.

(** The chunk [c] holds the line [l] whole, its newline included. *)
Definition holds_line (l : str) (c : str) : Prop :=
  exists u v, c = u ++ l ++ newline :: v.

(** The chunks of the loop by themselves, for at most [fuel] passes on a
    file whose unread part is [unread]: each is
    [prepend + f.read(chunk_size - len(prepend))], the first empty one
    ends the list, and the next [prepend] is
    [chunk[chunk.rfind('\n') + 1:]]. *)
Fixpoint raw_chunks
    (fuel : nat) (chunk_size : Z) (prepend unread : str) : list str :=
  match fuel with
  | O => []
  | S fuel' =>
      let (data, rest) := read (chunk_size - len prepend) unread in
      let chunk := prepend ++ data in
      if falsy chunk then []
      else chunk ::
           raw_chunks fuel' chunk_size
             (slice_from chunk (rfind chunk newline + 1)) rest
  end.

(** Every line of the list, counted with the newline that ended it, has
    at most [n] characters; the last line of the list was not ended by a
    newline and is counted without. *)
Fixpoint lines_fit (n : Z) (ls : list str) : bool :=
  match ls with
  | [] => true
  | l :: rest =>
      match rest with
      | [] => len l <=? n
      | _ :: _ => (len l + 1 <=? n) && lines_fit n rest
      end
  end.

(** The chunk size is negative, or every line of the file, counted with
    its newline when it has one, has at most [chunk_size] characters. *)
Definition readable (chunk_size : Z) (file : str) : bool :=
  (chunk_size <? 0) || lines_fit chunk_size (lines file).

(** [lines_fit] for a first line that has [cur] characters more than the
    list shows. *)
Definition fits_from (n cur : Z) (ls : list str) : bool :=
  match ls with
  | [] => true
  | l :: rest =>
      match rest with
      | [] => cur + len l <=? n
      | _ :: _ => (cur + len l + 1 <=? n) && lines_fit n rest
      end
  end.

(** ** The script run as a program *)

(** The path in the [__main__] block. *)
Definition script_path : string := "filesystem-test.ansi".

(** What a run of the program comes to: [open] raised because there is no
    file to read under the path, or [split_chinked_lines] was entered and
    got as far as the outcome says. *)
Inductive run : Type :=
| OpenFailed
| Entered (o : outcome).

(** The [__main__] block on a file system [fs] that gives the text stored
    under a path, if any; the call leaves [chunk_size] to its default. *)
Definition main (fuel : nat) (fs : string -> option str) : run :=
  match fs script_path with
  | None => OpenFailed
  | Some text => Entered (split_chinked_lines fuel text default_chunk_size)
  end.

(** ** The definitions on small inputs *)

Example rfind_last_of_two :
  rfind (lit "a" ++ [newline] ++ lit "b" ++ [newline] ++ lit "c") newline = 3.
Proof. reflexivity. Qed.

Example rfind_none : rfind (lit "abc") newline = -1.
Proof. reflexivity. Qed.

Example slice_from_negative : slice_from (lit "abcd") (-1) = lit "d".
Proof. reflexivity. Qed.

Example slice_from_past_end : slice_from (lit "abcd") 7 = [].
Proof. reflexivity. Qed.

Example read_past_end : read 4 (lit "ab") = (lit "ab", []).
Proof. reflexivity. Qed.

Example read_negative : read (-2) (lit "abc") = (lit "abc", []).
Proof. reflexivity. Qed.

Example lines_of_scenario : lines abc_lines = [lit "a"; lit "b"; lit "c"; []].
Proof. reflexivity. Qed.

Example run_with_open_last_line :
  let file := lit "a" ++ [newline] ++ lit "bc" in
  exists w,
    split_chinked_lines 4 file 4 = Running (lit "bc") w /\
    emitted w = [file; lit "bc"; lit "bc"; lit "bc"] /\
    read_sizes (log w) = [4; 2; 2; 2] /\
    copy_times (log w) = [0; 3; 6; 9].
Proof. eexists. repeat split. Qed.

(** ** Facts about the Python primitives *)

Section Primitives.

Lemma len_nonneg (s : str) : 0 <= len s.
Proof. unfold len. lia. Qed.

Lemma len_app (a b : str) : len (a ++ b) = len a + len b.
Proof. unfold len. rewrite length_app. lia. Qed.

Lemma falsy_nil (s : str) : falsy s = true <-> s = [].
Proof. destruct s; simpl; split; congruence. Qed.

Lemma read_app (size : Z) (u : str) :
  fst (read size u) ++ snd (read size u) = u.
Proof.
  unfold read. destruct (size <? 0); simpl.
  - apply app_nil_r.
  - apply firstn_skipn.
Qed.

Lemma read_len (size : Z) (u : str) :
  0 <= size -> len (fst (read size u)) <= size.
Proof.
  intros Hs. unfold read.
  destruct (size <? 0) eqn:E; [lia|]. simpl. unfold len.
  pose proof (firstn_le_length (Z.to_nat size) u). lia.
Qed.

Lemma read_nil (size : Z) : read size [] = ([], []).
Proof.
  unfold read. destruct (size <? 0); [reflexivity|].
  now rewrite firstn_nil, skipn_nil.
Qed.

Lemma read_zero (u : str) : read 0 u = ([], u).
Proof. reflexivity. Qed.

Lemma has_newline_In (s : str) : has_newline s = true <-> In newline s.
Proof.
  unfold has_newline. rewrite existsb_exists. split.
  - intros (x & Hx & E). apply Ascii.eqb_eq in E. now subst.
  - intros H. exists newline. split; [assumption | apply Ascii.eqb_refl].
Qed.

Lemma has_newline_false (s : str) : has_newline s = false <-> ~ In newline s.
Proof.
  rewrite <- has_newline_In. destruct (has_newline s); split; congruence.
Qed.

Lemma rfind_absent (c : ascii) (s : str) : ~ In c s -> rfind s c = -1.
Proof.
  induction s as [|x t IH]; simpl; intros H; [reflexivity|].
  rewrite IH by tauto. simpl.
  destruct (Ascii.eqb x c) eqn:E; [|reflexivity].
  apply Ascii.eqb_eq in E. tauto.
Qed.

Lemma rfind_last (c : ascii) (a b : str) :
  ~ In c b -> rfind (a ++ c :: b) c = len a.
Proof.
  intros Hb. induction a as [|x a IH]; simpl.
  - rewrite (rfind_absent c b Hb). simpl. now rewrite Ascii.eqb_refl.
  - rewrite IH. pose proof (len_nonneg a).
    destruct (0 <=? len a) eqn:E; [|lia]. unfold len. simpl length. lia.
Qed.

(** A text has no newline, or it splits at its last newline. *)
Lemma last_newline (s : str) :
  ~ In newline s \/
  exists a b, s = a ++ newline :: b /\ ~ In newline b.
Proof.
  induction s as [|x t IH].
  - left. simpl. tauto.
  - destruct IH as [H | (a & b & E & Hb)].
    + destruct (Ascii.eqb x newline) eqn:Ex.
      * apply Ascii.eqb_eq in Ex. subst x.
        right. now exists [], t.
      * apply Ascii.eqb_neq in Ex. left. simpl. intros [?|?]; congruence.
    + right. exists (x :: a), b. subst t. now split.
Qed.

Lemma carry_of_whole (s : str) : ~ In newline s -> carry_of s = s.
Proof.
  intros H. unfold carry_of. now rewrite rfind_absent.
Qed.

Lemma carry_of_after (a b : str) :
  ~ In newline b -> carry_of (a ++ newline :: b) = b.
Proof.
  intros H. unfold carry_of, slice_from. rewrite rfind_last by assumption.
  pose proof (len_nonneg a).
  destruct (len a + 1 <? 0) eqn:E; [lia|].
  replace (Z.to_nat (len a + 1)) with (length (a ++ [newline])).
  - change (a ++ newline :: b) with (a ++ [newline] ++ b).
    rewrite app_assoc, skipn_app, skipn_all, Nat.sub_diag. reflexivity.
  - rewrite length_app. unfold len. simpl. lia.
Qed.

Lemma carry_of_no_newline (s : str) : ~ In newline (carry_of s).
Proof.
  destruct (last_newline s) as [H | (a & b & E & Hb)].
  - now rewrite carry_of_whole.
  - subst s. now rewrite carry_of_after.
Qed.

Lemma carry_of_app (x y : str) :
  carry_of (x ++ y) =
  if has_newline y then carry_of y else carry_of x ++ y.
Proof.
  destruct (has_newline y) eqn:Hy.
  - apply has_newline_In in Hy.
    destruct (last_newline y) as [H | (a & b & E & Hb)]; [tauto|].
    subst y. rewrite app_assoc, !carry_of_after by assumption. reflexivity.
  - apply has_newline_false in Hy.
    destruct (last_newline x) as [H | (a & b & E & Hb)].
    + rewrite !carry_of_whole; trivial.
      rewrite in_app_iff. tauto.
    + subst x. rewrite <- app_assoc. simpl.
      rewrite !carry_of_after; trivial.
      rewrite in_app_iff. tauto.
Qed.

Lemma carry_of_carry (x y : str) :
  carry_of (carry_of x ++ y) = carry_of (x ++ y).
Proof.
  rewrite !carry_of_app. destruct (has_newline y); [reflexivity|].
  now rewrite carry_of_whole by apply carry_of_no_newline.
Qed.

Lemma carry_of_nil : carry_of [] = [].
Proof. reflexivity. Qed.

End Primitives.

(** ** One pass of the loop *)

Section Pass.

Variable chunk_size : Z.

(** What [body] computes, with the monad unfolded. *)
Lemma body_unfold (prepend : str) (w : world) :
  let size := chunk_size - len prepend in
  let data := fst (read size (unread w)) in
  let rest := snd (read size (unread w)) in
  let chunk := prepend ++ data in
  body chunk_size prepend w =
  if falsy chunk
  then (None, mkWorld rest (clock w) (log w ++ [(clock w, Read size)]))
  else (Some (carry_of chunk),
        mkWorld rest (clock w + 3)
          (log w ++ stamped (clock w) (pass_events size chunk))).
Proof.
  cbv zeta. unfold body, bind, f_read.
  destruct (read (chunk_size - len prepend) (unread w)) as [data rest].
  simpl fst; simpl snd.
  destruct (falsy (prepend ++ data)); [reflexivity|].
  unfold pyperclip_copy, print, time_sleep, ret, record, stamped, pass_events.
  simpl. rewrite <- !app_assoc. reflexivity.
Qed.

(** A pass that leaves the loop: nothing was pending and nothing was
    read. *)
Lemma body_break (prepend : str) (w w' : world) :
  body chunk_size prepend w = (None, w') ->
  prepend = [] /\ fst (read chunk_size (unread w)) = [] /\
  unread w' = snd (read chunk_size (unread w)) /\
  clock w' = clock w /\
  log w' = log w ++ [(clock w, Read chunk_size)].
Proof.
  rewrite body_unfold.
  destruct (falsy _) eqn:E; [|discriminate].
  apply falsy_nil in E. apply app_eq_nil in E. destruct E as [-> E].
  change (len []) with 0 in *. rewrite Z.sub_0_r in *.
  intros H. injection H as <-. simpl. auto.
Qed.

(** A pass that goes on: a non-empty chunk went to the clipboard. *)
Lemma body_continue (prepend prepend' : str) (w w' : world) :
  body chunk_size prepend w = (Some prepend', w') ->
  let size := chunk_size - len prepend in
  let chunk := prepend ++ fst (read size (unread w)) in
  chunk <> [] /\ prepend' = carry_of chunk /\
  unread w' = snd (read size (unread w)) /\
  clock w' = clock w + 3 /\
  log w' = log w ++ stamped (clock w) (pass_events size chunk).
Proof.
  rewrite body_unfold. cbv zeta.
  destruct (falsy _) eqn:E; [discriminate|].
  intros H. injection H as <- <-. simpl.
  repeat split. intros N. apply falsy_nil in N. congruence.
Qed.

(** Invariants of the loop: a property of [prepend] and the world that
    every continuing pass keeps holds while the loop runs, and held
    before the pass that left it. *)
Lemma while_true_invariant (Inv : str -> world -> Prop) :
  (forall p w p' w',
      Inv p w -> body chunk_size p w = (Some p', w') -> Inv p' w') ->
  forall fuel p w,
    Inv p w ->
    match while_true fuel chunk_size p w with
    | Running p' w' => Inv p' w'
    | Returned w' =>
        exists p0 w0, Inv p0 w0 /\ body chunk_size p0 w0 = (None, w')
    end.
Proof.
  intros Hstep fuel. induction fuel as [|fuel IH]; intros p w HI; simpl.
  - assumption.
  - destruct (body chunk_size p w) as [[p'|] w'] eqn:E.
    + apply IH. eapply Hstep; eassumption.
    + now exists p, w.
Qed.

(** More fuel does not change a run that has returned. *)
Lemma while_true_returned (fuel extra : nat) (p : str) (w w' : world) :
  while_true fuel chunk_size p w = Returned w' ->
  while_true (fuel + extra) chunk_size p w = Returned w'.
Proof.
  revert p w. induction fuel as [|fuel IH]; intros p w; simpl.
  - discriminate.
  - destruct (body chunk_size p w) as [[p'|] w0]; [apply IH | trivial].
Qed.

(** Running [a + b] passes is running [a] and then [b] more. *)
Lemma while_true_add (a b : nat) (p p' : str) (w w' : world) :
  while_true a chunk_size p w = Running p' w' ->
  while_true (a + b) chunk_size p w = while_true b chunk_size p' w'.
Proof.
  revert p w. induction a as [|a IH]; intros p w; simpl.
  - intros H. now injection H as -> ->.
  - destruct (body chunk_size p w) as [[p0|] w0]; [apply IH | discriminate].
Qed.

End Pass.

(** ** What a pass adds to the observations *)

Section Observations.

Lemma copies_app (l l' : list (Z * event)) :
  copies (l ++ l') = copies l ++ copies l'.
Proof.
  induction l as [|[t e] l IH]; simpl; [reflexivity|].
  destruct e; simpl; now rewrite IH.
Qed.

Lemma copy_times_app (l l' : list (Z * event)) :
  copy_times (l ++ l') = copy_times l ++ copy_times l'.
Proof.
  induction l as [|[t e] l IH]; simpl; [reflexivity|].
  destruct e; simpl; now rewrite IH.
Qed.

Lemma read_sizes_app (l l' : list (Z * event)) :
  read_sizes (l ++ l') = read_sizes l ++ read_sizes l'.
Proof.
  induction l as [|[t e] l IH]; simpl; [reflexivity|].
  destruct e; simpl; now rewrite IH.
Qed.

Lemma undecorate_decorate (chunk : str) : undecorate (decorate chunk) = chunk.
Proof.
  unfold undecorate, decorate.
  rewrite skipn_app, skipn_all, Nat.sub_diag.
  change (skipn 0 (chunk ++ decoration_suffix))
    with (chunk ++ decoration_suffix).
  rewrite app_nil_l, length_app, Nat.add_sub.
  rewrite firstn_app, firstn_all, Nat.sub_diag.
  change (firstn 0 decoration_suffix) with (@nil ascii). apply app_nil_r.
Qed.

Lemma len_decorate (chunk : str) : len (decorate chunk) = len chunk + 11.
Proof.
  unfold decorate. rewrite !len_app.
  change (len decoration_prefix) with 8.
  change (len decoration_suffix) with 3. lia.
Qed.

Variable chunk_size : Z.

Lemma emitted_continue (p p' : str) (w w' : world) :
  body chunk_size p w = (Some p', w') ->
  emitted w' =
  emitted w ++ [p ++ fst (read (chunk_size - len p) (unread w))].
Proof.
  intros H. apply body_continue in H. destruct H as (_ & _ & _ & _ & L).
  unfold emitted. rewrite L, copies_app, map_app. simpl.
  now rewrite undecorate_decorate.
Qed.

Lemma emitted_break (p : str) (w w' : world) :
  body chunk_size p w = (None, w') -> emitted w' = emitted w.
Proof.
  intros H. apply body_break in H. destruct H as (_ & _ & _ & _ & L).
  unfold emitted. rewrite L, copies_app. simpl. now rewrite app_nil_r.
Qed.

Lemma carry_of_len (s : str) : len (carry_of s) <= len s.
Proof.
  destruct (last_newline s) as [H | (a & b & E & Hb)].
  - rewrite carry_of_whole by assumption. lia.
  - subst s. rewrite carry_of_after by assumption.
    rewrite len_app. pose proof (len_nonneg a).
    unfold len at 3. simpl length. unfold len. lia.
Qed.

End Observations.

(** ** The carry *)

(** C10.  The carry never holds a newline character: [prepend] is empty
    before the first pass, it is free of newlines whenever a pass is about
    to start, and the chunk of that pass begins with it. *)
Theorem carry_has_no_newline
    (chunk_size : Z) (file : str) (fuel : nat) (p : str) (w : world) :
  split_chinked_lines fuel file chunk_size = Running p w ->
  (fuel = 0%nat -> p = []) /\
  has_newline p = false /\
  (forall p' w',
      body chunk_size p w = (Some p', w') ->
      exists data, emitted w' = emitted w ++ [p ++ data]).
Proof.
  intros H. split; [|split].
  - intros ->. simpl in H. now injection H as <- _.
  - pose proof (while_true_invariant chunk_size
                  (fun p _ => has_newline p = false)) as I.
    specialize (I ltac:(intros q v q' v' _ Hb; apply body_continue in Hb;
                        destruct Hb as (_ & -> & _);
                        apply has_newline_false, carry_of_no_newline)).
    specialize (I fuel [] (opened file) eq_refl).
    unfold split_chinked_lines in H. now rewrite H in I.
  - intros p' w' Hb. eexists. eapply emitted_continue; eassumption.
Qed.

Lemma carry_has_no_newline_witness :
  split_chinked_lines 1 (lit "ab") 4
  = Running (lit "ab")
      (mkWorld [] 3
         (stamped 0 (pass_events 4 (lit "ab")))) /\
  has_newline (lit "ab") = false.
Proof.
  split; [reflexivity|].
  exact (proj1 (proj2
           (carry_has_no_newline 4 (lit "ab") 1 (lit "ab") _ eq_refl))).
Defined.

(** The carry of a running loop is computed from the last chunk handed
    over. *)
Lemma running_carry_of_last
    (chunk_size : Z) (file : str) (fuel : nat) (p : str) (w : world) :
  split_chinked_lines fuel file chunk_size = Running p w ->
  p = carry_of (last (emitted w) []).
Proof.
  intros H.
  pose proof (while_true_invariant chunk_size
                (fun p w => p = carry_of (last (emitted w) []))) as I.
  cbv beta in I.
  assert (Hstep : forall q v q' v',
             q = carry_of (last (emitted v) []) ->
             body chunk_size q v = (Some q', v') ->
             q' = carry_of (last (emitted v') [])).
  { intros q v q' v' _ Hb.
    rewrite (emitted_continue _ _ _ _ _ Hb), last_last.
    apply body_continue in Hb. tauto. }
  specialize (I Hstep fuel [] (opened file) eq_refl).
  unfold split_chinked_lines in H. now rewrite H in I.
Qed.

(** C5.  After every hand-off the carry is what follows the last newline
    of the chunk just handed over, and the whole chunk when it has no
    newline. *)
Theorem carry_is_trailing_partial_line
    (chunk_size : Z) (file : str) (fuel : nat) (p : str) (w : world)
    (earlier : list str) (chunk : str) :
  split_chinked_lines fuel file chunk_size = Running p w ->
  emitted w = earlier ++ [chunk] ->
  (forall a b, chunk = a ++ newline :: b -> ~ In newline b -> p = b) /\
  (~ In newline chunk -> p = chunk).
Proof.
  intros H E. apply running_carry_of_last in H.
  rewrite E, last_last in H. subst p. split.
  - intros a b -> Hb. now apply carry_of_after.
  - apply carry_of_whole.
Qed.

Lemma carry_is_trailing_partial_line_witness :
  let chunk := lit "ab" ++ newline :: lit "cd" in
  let w := mkWorld (lit "efg") 3 (stamped 0 (pass_events 5 chunk)) in
  split_chinked_lines 1 (chunk ++ lit "efg") 5 = Running (lit "cd") w /\
  emitted w = [] ++ [chunk] /\
  (forall a b, chunk = a ++ newline :: b -> ~ In newline b -> lit "cd" = b) /\
  (~ In newline chunk -> lit "cd" = chunk).
Proof.
  cbv zeta. split; [reflexivity|]. split; [reflexivity|].
  apply (carry_is_trailing_partial_line 5
           ((lit "ab" ++ newline :: lit "cd") ++ lit "efg") 1 (lit "cd")
           (mkWorld (lit "efg") 3
              (stamped 0 (pass_events 5 (lit "ab" ++ newline :: lit "cd"))))
           [] (lit "ab" ++ newline :: lit "cd"));
    reflexivity.
Defined.

(** ** The size of a chunk *)

(** With a chunk size that is not negative, the carry and every chunk
    handed over fit in it. *)
Lemma chunks_fit (chunk_size : Z) (file : str) (fuel : nat) :
  0 <= chunk_size ->
  Forall (fun c => len c <= chunk_size)
    (emitted (world_of (split_chinked_lines fuel file chunk_size))).
Proof.
  intros Hcs.
  pose proof (while_true_invariant chunk_size
                (fun p w => len p <= chunk_size /\
                            Forall (fun c => len c <= chunk_size) (emitted w)))
    as I.
  cbv beta in I.
  assert (Hstep : forall q v q' v',
             len q <= chunk_size /\
             Forall (fun c => len c <= chunk_size) (emitted v) ->
             body chunk_size q v = (Some q', v') ->
             len q' <= chunk_size /\
             Forall (fun c => len c <= chunk_size) (emitted v')).
  { intros q v q' v' [Hq Hv] Hb.
    assert (Hc : len (q ++ fst (read (chunk_size - len q) (unread v)))
                 <= chunk_size).
    { rewrite len_app.
      pose proof (read_len (chunk_size - len q) (unread v)). lia. }
    split.
    - apply body_continue in Hb. destruct Hb as (_ & -> & _).
      etransitivity; [apply carry_of_len | exact Hc].
    - rewrite (emitted_continue _ _ _ _ _ Hb).
      apply Forall_app. split; [assumption|]. now constructor. }
  specialize (I Hstep fuel [] (opened file)).
  unfold split_chinked_lines.
  destruct (while_true fuel chunk_size [] (opened file)) as [w'|p' w'];
    simpl.
  - destruct I as (p0 & w0 & [_ H0] & Hb).
    + split; [exact Hcs | constructor].
    + now rewrite (emitted_break _ _ _ _ Hb).
  - apply I. split; [exact Hcs | constructor].
Qed.

(** C3.  For a positive chunk size every chunk handed to the clipboard
    has at most [chunk_size] characters, however many passes the loop has
    made, the passes that only hand over the carry included. *)
Theorem chunk_length_bounded (chunk_size : Z) (file : str) (fuel : nat) :
  0 < chunk_size ->
  Forall (fun c => len c <= chunk_size)
    (emitted (world_of (split_chinked_lines fuel file chunk_size))).
Proof.
  intros H. apply chunks_fit. lia.
Qed.

Lemma chunk_length_bounded_witness :
  0 < 2 /\
  Forall (fun c => len c <= 2)
    (emitted (world_of (split_chinked_lines 3 (lit "abc") 2))).
Proof.
  split; [lia|]. apply (chunk_length_bounded 2 (lit "abc") 3). lia.
Defined.

(** ** Decoration *)

(** Every text handed to the clipboard is its chunk between the two
    fixed markers. *)
Lemma copies_decorated (chunk_size : Z) (file : str) (fuel : nat) :
  let w := world_of (split_chinked_lines fuel file chunk_size) in
  copies (log w) = map decorate (emitted w).
Proof.
  cbv zeta.
  pose proof (while_true_invariant chunk_size
                (fun _ w => copies (log w) = map decorate (emitted w))) as I.
  cbv beta in I.
  assert (Hstep : forall q v q' v',
             copies (log v) = map decorate (emitted v) ->
             body chunk_size q v = (Some q', v') ->
             copies (log v') = map decorate (emitted v')).
  { intros q v q' v' Hv Hb.
    rewrite (emitted_continue _ _ _ _ _ Hb), map_app, <- Hv.
    apply body_continue in Hb. destruct Hb as (_ & _ & _ & _ & ->).
    now rewrite copies_app. }
  specialize (I Hstep fuel [] (opened file) eq_refl).
  unfold split_chinked_lines.
  destruct (while_true fuel chunk_size [] (opened file)) as [w'|p' w'];
    simpl; [|exact I].
  destruct I as (p0 & w0 & H0 & Hb).
  rewrite (emitted_break _ _ _ _ Hb), <- H0.
  apply body_break in Hb. destruct Hb as (_ & _ & _ & _ & ->).
  rewrite copies_app. simpl. apply app_nil_r.
Qed.

(** What the clipboard receives in [fuel] passes is, text for text, the
    chunks of the loop between the two markers. *)
Lemma copies_raw_chunks
    (chunk_size : Z) (fuel : nat) (p : str) (w : world) :
  copies (log (world_of (while_true fuel chunk_size p w)))
  = copies (log w) ++ map decorate (raw_chunks fuel chunk_size p (unread w)).
Proof.
  revert p w. induction fuel as [|fuel IH]; intros p w; simpl.
  - now rewrite app_nil_r.
  - rewrite body_unfold. cbv zeta.
    destruct (read (chunk_size - len p) (unread w)) as [data rest].
    simpl fst; simpl snd. fold (carry_of (p ++ data)).
    destruct (falsy (p ++ data)); simpl.
    + rewrite copies_app. reflexivity.
    + rewrite IH. simpl log; simpl unread.
      rewrite copies_app, <- app_assoc. reflexivity.
Qed.

(** C8.  Whatever is handed to the clipboard is the chunk of its pass,
    [prepend + f.read(chunk_size - len(prepend))], between the literal
    prefix and the literal suffix of the f-string, the same on every
    hand-off; with the default chunk size no such text is longer than
    2000 characters. *)
Theorem decorated_chunk_fits_message_limit (file : str) (fuel : nat) :
  (forall chunk_size,
      let w := world_of (split_chinked_lines fuel file chunk_size) in
      emitted w = raw_chunks fuel chunk_size [] file /\
      copies (log w)
      = map (fun chunk => lit "```ansi " ++ chunk ++ lit "```")
          (raw_chunks fuel chunk_size [] file)) /\
  (forall chunk_size p w p' w',
      split_chinked_lines fuel file chunk_size = Running p w ->
      body chunk_size p w = (Some p', w') ->
      copies (log w')
      = copies (log w) ++
        [lit "```ansi " ++
         (p ++ fst (read (chunk_size - len p) (unread w))) ++
         lit "```"]) /\
  Forall (fun text => len text <= 2000)
    (copies
       (log (world_of (split_chinked_lines fuel file default_chunk_size)))).
Proof.
  split; [|split].
  - intros chunk_size.
    assert (C : copies (log (world_of
                  (split_chinked_lines fuel file chunk_size)))
                = map decorate (raw_chunks fuel chunk_size [] file)).
    { unfold split_chinked_lines. now rewrite copies_raw_chunks. }
    cbv zeta. split; [|exact C].
    unfold emitted. rewrite C, map_map.
    rewrite (map_ext _ (fun c => c)) by apply undecorate_decorate.
    apply map_id.
  - intros chunk_size p w p' w' _ Hb.
    apply body_continue in Hb. cbv zeta in Hb.
    destruct Hb as (_ & _ & _ & _ & ->).
    rewrite copies_app. reflexivity.
  - rewrite copies_decorated. apply Forall_map.
    eapply Forall_impl; [|apply (chunks_fit default_chunk_size file fuel)].
    + intros c Hc. cbv beta in Hc. rewrite len_decorate.
      unfold default_chunk_size in Hc. lia.
    + unfold default_chunk_size. lia.
Qed.

(** ** Two runs that end *)

(** C7.  On an empty file the first pass leaves the loop: no chunk is
    emitted and the clipboard is never written. *)
Theorem empty_file_emits_nothing (chunk_size : Z) (extra : nat) :
  exists w,
    split_chinked_lines (S extra) [] chunk_size = Returned w /\
    emitted w = [] /\ copies (log w) = [] /\
    log w = [(0, Read chunk_size)].
Proof.
  exists (mkWorld [] 0 [(0, Read chunk_size)]).
  unfold split_chinked_lines. simpl while_true.
  rewrite body_unfold. cbv zeta. unfold opened. simpl unread.
  rewrite read_nil. change (len []) with 0. rewrite Z.sub_0_r.
  simpl. repeat split.
Qed.

(** C4.  The file of three one-letter lines with chunk size 4: the first
    pass hands over the first two lines, the second the third line, the
    carry is empty after each, and the third pass leaves the loop. *)
Theorem scenario_three_short_lines :
  let first := lit "a" ++ [newline] ++ lit "b" ++ [newline] in
  let second := lit "c" ++ [newline] in
  len abc_lines = 6 /\
  (exists w, split_chinked_lines 1 abc_lines 4 = Running [] w /\
             emitted w = [first]) /\
  (exists w, split_chinked_lines 2 abc_lines 4 = Running [] w /\
             emitted w = [first; second]) /\
  (forall extra,
      exists w, split_chinked_lines (3 + extra) abc_lines 4 = Returned w /\
                emitted w = [first; second] /\ unread w = []).
Proof.
  cbv zeta. split; [reflexivity|].
  split; [eexists; split; reflexivity|].
  split; [eexists; split; reflexivity|].
  intros extra. eexists. split.
  - apply (while_true_returned 4 3 extra). reflexivity.
  - split; reflexivity.
Qed.

(** ** Passes that make no progress *)

Section Stall.

Variable chunk_size : Z.

(** A pass that starts with a non-empty carry and gets nothing from the
    file hands the carry over and changes neither it nor the file. *)
Lemma stalled_pass (p : str) (w : world) :
  p <> [] -> has_newline p = false ->
  unread w = [] \/ len p = chunk_size ->
  body chunk_size p w =
  (Some p,
   mkWorld (unread w) (clock w + 3)
     (log w ++ stamped (clock w) (pass_events (chunk_size - len p) p))).
Proof.
  intros Hp Hnl Hstall. rewrite body_unfold. cbv zeta.
  assert (R : read (chunk_size - len p) (unread w) = ([], unread w)).
  { destruct Hstall as [-> | ->].
    - apply read_nil.
    - rewrite Z.sub_diag. apply read_zero. }
  rewrite R. simpl fst; simpl snd. rewrite app_nil_r.
  destruct p as [|c p]; [congruence|]. simpl falsy. cbv iota.
  rewrite carry_of_whole by now apply has_newline_false.
  reflexivity.
Qed.

(** A file without newline that is longer than a positive chunk size:
    every pass hands over the first [chunk_size] characters, every pass
    but the first asks for no character, and the rest of the file stays
    unread. *)
Lemma stall_on_long_line (file : str) (n : nat) :
  0 < chunk_size -> has_newline file = false -> chunk_size < len file ->
  let chunk := firstn (Z.to_nat chunk_size) file in
  exists w,
    split_chinked_lines (S n) file chunk_size = Running chunk w /\
    emitted w = repeat chunk (S n) /\
    read_sizes (log w) = chunk_size :: repeat 0 n /\
    unread w = skipn (Z.to_nat chunk_size) file.
Proof.
  intros Hcs Hnl Hlen chunk.
  assert (Lc : len chunk = chunk_size).
  { unfold chunk, len. rewrite length_firstn. unfold len in Hlen. lia. }
  assert (Nc : has_newline chunk = false).
  { apply has_newline_false. intros Hin.
    apply has_newline_false in Hnl. apply Hnl.
    rewrite <- (firstn_skipn (Z.to_nat chunk_size) file).
    apply in_or_app. now left. }
  assert (Ec : chunk <> []).
  { intros E. rewrite E in Lc. change (len []) with 0 in Lc. lia. }
  induction n as [|n IH].
  - unfold split_chinked_lines. simpl while_true.
    rewrite body_unfold. cbv zeta. unfold opened. simpl unread.
    change (len []) with 0. rewrite Z.sub_0_r. unfold read.
    destruct (chunk_size <? 0) eqn:E; [lia|]. simpl fst; simpl snd.
    rewrite app_nil_l. fold chunk.
    destruct chunk as [|c0 chunk0] eqn:Echunk; [congruence|].
    simpl falsy. cbv iota. rewrite <- Echunk in *.
    rewrite carry_of_whole by now apply has_newline_false.
    eexists. split; [reflexivity|].
    unfold emitted. simpl. rewrite undecorate_decorate. auto.
  - destruct IH as (w & Hrun & Hem & Hrd & Hun).
    unfold split_chinked_lines in *.
    replace (S (S n)) with (S n + 1)%nat by lia.
    rewrite (while_true_add _ _ _ _ _ _ _ Hrun). simpl while_true.
    rewrite stalled_pass by auto.
    eexists. split; [reflexivity|].
    unfold emitted in *. simpl log. simpl unread.
    rewrite copies_app, read_sizes_app, map_app, Hem, Hrd, Lc, Z.sub_diag.
    simpl. rewrite undecorate_decorate.
    rewrite <- !repeat_cons, ?Nat.add_1_r. simpl repeat. auto.
Qed.

End Stall.

(** C6.  A file without newline that is longer than the chunk size: after
    the first hand-off the carry is the whole chunk, every later pass asks
    the file for zero characters and hands the same chunk over again, the
    rest of the file is never read, and the loop is still running after
    any number of passes. *)
Theorem long_unbroken_file_stalls (chunk_size : Z) (file : str) (n : nat) :
  0 < chunk_size -> has_newline file = false -> chunk_size < len file ->
  let chunk := firstn (Z.to_nat chunk_size) file in
  exists w,
    split_chinked_lines (S n) file chunk_size = Running chunk w /\
    emitted w = repeat chunk (S n) /\
    read_sizes (log w) = chunk_size :: repeat 0 n /\
    unread w = skipn (Z.to_nat chunk_size) file.
Proof.
  apply stall_on_long_line.
Qed.

Lemma long_unbroken_file_stalls_witness :
  0 < 2 /\ has_newline (lit "abc") = false /\ 2 < len (lit "abc") /\
  exists w,
    split_chinked_lines 3 (lit "abc") 2 = Running (lit "ab") w /\
    emitted w = [lit "ab"; lit "ab"; lit "ab"] /\
    read_sizes (log w) = [2; 0; 0] /\
    unread w = lit "c".
Proof.
  split; [lia|]. split; [reflexivity|]. split; [reflexivity|].
  apply (long_unbroken_file_stalls 2 (lit "abc") 2); [lia | reflexivity ..].
Defined.

(** ** The chunks and the file *)

Section Tracking.

Lemma carry_after_snoc (carry : str) (l : list str) (c : str) :
  carry_after carry (l ++ [c]) = carry_of c.
Proof. unfold carry_after. now rewrite fold_left_app. Qed.

Lemma reassemble_from_snoc (carry : str) (l : list str) (c : str) :
  reassemble_from carry (l ++ [c]) =
  reassemble_from carry l ++ skipn (length (carry_after carry l)) c.
Proof.
  revert carry. induction l as [|x l IH]; intros carry; simpl.
  - apply app_nil_r.
  - now rewrite IH, app_assoc.
Qed.

Variable chunk_size : Z.
Variable file : str.

Lemma tracks_opened : tracks file [] (opened file).
Proof. repeat split. Qed.

Lemma tracks_continue (p p' : str) (w w' : world) :
  tracks file p w -> body chunk_size p w = (Some p', w') ->
  tracks file p' w'.
Proof.
  intros (Hfile & Hp & Hc) Hb. unfold tracks.
  rewrite (emitted_continue _ _ _ _ _ Hb).
  apply body_continue in Hb. cbv zeta in Hb.
  destruct Hb as (_ & -> & -> & _).
  unfold reassemble in *.
  rewrite reassemble_from_snoc, carry_after_snoc, <- Hc.
  rewrite skipn_app, skipn_all, Nat.sub_diag, app_nil_l.
  change (skipn 0 ?x) with x.
  repeat split.
  - rewrite <- app_assoc, read_app. exact Hfile.
  - rewrite Hp at 1. apply carry_of_carry.
Qed.

Lemma tracks_break (p : str) (w w' : world) :
  tracks file p w -> body chunk_size p w = (None, w') ->
  tracks file [] w'.
Proof.
  intros (Hfile & Hp & Hc) Hb. unfold tracks.
  rewrite (emitted_break _ _ _ _ Hb).
  apply body_break in Hb. destruct Hb as (-> & Hd & -> & _).
  repeat split; try assumption.
  pose proof (read_app chunk_size (unread w)) as R.
  rewrite Hd in R. simpl in R. now rewrite R.
Qed.

(** Whatever the file and the chunk size, the loop variable and the
    world agree with the file after any number of passes. *)
Lemma run_tracks (fuel : nat) :
  match split_chinked_lines fuel file chunk_size with
  | Running p w => tracks file p w
  | Returned w => tracks file [] w
  end.
Proof.
  pose proof (while_true_invariant chunk_size (tracks file)
                (fun p w p' w' => tracks_continue p p' w w')
                fuel [] (opened file) tracks_opened) as I.
  unfold split_chinked_lines.
  destruct (while_true fuel chunk_size [] (opened file)) as [w|p w].
  - destruct I as (p0 & w0 & H0 & Hb). eapply tracks_break; eassumption.
  - exact I.
Qed.

(** What has been put together so far is the part of the file that has
    been read. *)
Lemma reassembled_prefix (fuel : nat) :
  let w := world_of (split_chinked_lines fuel file chunk_size) in
  reassemble (emitted w) ++ unread w = file.
Proof.
  cbv zeta. pose proof (run_tracks fuel) as T.
  destruct (split_chinked_lines fuel file chunk_size); apply T.
Qed.

End Tracking.

(** ** Lines *)

Section Lines.

Lemma lines_not_nil (s : str) : lines s <> [].
Proof.
  destruct s as [|c t]; simpl; [discriminate|].
  destruct (Ascii.eqb c newline); [discriminate|].
  destruct (lines t); discriminate.
Qed.

Lemma lines_app_newline (a b : str) :
  lines (a ++ newline :: b) = lines a ++ lines b.
Proof.
  induction a as [|x a IH]; simpl.
  - reflexivity.
  - destruct (Ascii.eqb x newline); rewrite IH; [reflexivity|].
    pose proof (lines_not_nil a). destruct (lines a); [congruence|].
    reflexivity.
Qed.

(** A newline-free text in front of [y] is the start of the first
    line. *)
Lemma lines_app_first (b y : str) :
  ~ In newline b ->
  exists hd tl, lines (b ++ y) = (b ++ hd) :: tl.
Proof.
  induction b as [|x b IH]; simpl; intros Hb.
  - pose proof (lines_not_nil y). destruct (lines y) as [|hd tl] eqn:E;
      [congruence|]. now exists hd, tl.
  - destruct (Ascii.eqb x newline) eqn:Ex.
    + apply Ascii.eqb_eq in Ex. tauto.
    + destruct IH as (hd & tl & ->); [tauto|]. now exists hd, tl.
Qed.

Lemma lines_shorter_positive (n : Z) (s : str) :
  lines_shorter n s = true -> 0 < n.
Proof.
  unfold lines_shorter. pose proof (lines_not_nil s) as N.
  destruct (lines s) as [|l ls]; [congruence|]. simpl.
  intros H. apply andb_prop in H. destruct H as [H _].
  pose proof (len_nonneg l). lia.
Qed.

(** In a text whose lines are shorter than [n], the trailing partial
    line of any part read so far is shorter than [n]. *)
Lemma carry_shorter (n : Z) (x y : str) :
  lines_shorter n (x ++ y) = true -> len (carry_of x) < n.
Proof.
  unfold lines_shorter. intros H.
  assert (F : forall b z, ~ In newline b ->
              forallb (fun l => len l <? n) (lines (b ++ z)) = true ->
              len b < n).
  { intros b z Hb Hz. destruct (lines_app_first b z Hb) as (hd & tl & E).
    rewrite E in Hz. simpl in Hz. apply andb_prop in Hz.
    destruct Hz as [Hz _]. rewrite len_app in Hz.
    pose proof (len_nonneg hd). lia. }
  destruct (last_newline x) as [Hx | (a & b & E & Hb)].
  - rewrite carry_of_whole by assumption. now apply (F x y).
  - subst x. rewrite carry_of_after by assumption.
    rewrite <- app_assoc in H. simpl in H.
    rewrite lines_app_newline, forallb_app in H.
    apply andb_prop in H. destruct H as [_ H]. now apply (F b y).
Qed.

End Lines.

(** ** Where lines begin *)

Section LineStarts.

Lemma endswith_newline_inv (s : str) :
  endswith_newline s = true -> exists s', s = s' ++ [newline].
Proof.
  unfold endswith_newline. destruct (rev s) as [|c r] eqn:E; [discriminate|].
  intros H. apply Ascii.eqb_eq in H. subst c. exists (rev r).
  rewrite <- (rev_involutive s), E. reflexivity.
Qed.

Lemma endswith_newline_snoc (s : str) :
  endswith_newline (s ++ [newline]) = true.
Proof. unfold endswith_newline. now rewrite rev_app_distr. Qed.

(** Every text is its trailing partial line after a text at whose end a
    new line begins. *)
Lemma carry_of_split (s : str) :
  exists pre, s = pre ++ carry_of s /\ at_line_start pre.
Proof.
  destruct (last_newline s) as [H | (a & b & E & Hb)].
  - exists []. rewrite carry_of_whole by assumption. split; [reflexivity|].
    now left.
  - exists (a ++ [newline]). subst s. rewrite carry_of_after by assumption.
    split; [now rewrite <- app_assoc|]. right. apply endswith_newline_snoc.
Qed.

End LineStarts.

(** ** Reading the file to its end *)

Section Exhaustion.

Variable chunk_size : Z.
Variable file : str.

Lemma read_nothing (size : Z) (u : str) :
  size <> 0 -> fst (read size u) = [] -> u = [].
Proof.
  unfold read. intros Hs. destruct (size <? 0) eqn:E; simpl; [trivial|].
  destruct u as [|c u]; [trivial|].
  destruct (Z.to_nat size) eqn:En; [lia | discriminate].
Qed.

Lemma read_rest_length (size : Z) (u : str) :
  0 < size -> (length (snd (read size u)) <= length u - 1)%nat.
Proof.
  unfold read. intros Hs. destruct (size <? 0) eqn:E; [lia|]. simpl.
  rewrite length_skipn. lia.
Qed.

(** When every line is shorter than the chunk size, each pass reads at
    least one character as long as there is one, so as many passes as
    the file has characters read all of it. *)
Lemma exhausts :
  lines_shorter chunk_size file = true ->
  forall fuel p w,
    tracks file p w -> (length (unread w) <= fuel)%nat ->
    unread (world_of (while_true fuel chunk_size p w)) = [].
Proof.
  intros Hl. pose proof (lines_shorter_positive _ _ Hl) as Hcs.
  induction fuel as [|fuel IH]; intros p w T Hlen; simpl.
  - destruct (unread w); [reflexivity | simpl in Hlen; lia].
  - destruct (body chunk_size p w) as [[p'|] w'] eqn:Hb.
    + apply IH; [eapply tracks_continue; eassumption|].
      apply body_continue in Hb. cbv zeta in Hb.
      destruct Hb as (_ & _ & -> & _).
      assert (Hp : len p < chunk_size).
      { destruct T as (Hf & -> & _). apply (carry_shorter _ _ (unread w)).
        now rewrite Hf. }
      pose proof (read_rest_length (chunk_size - len p) (unread w)). lia.
    + simpl. apply body_break in Hb. destruct Hb as (_ & Hd & -> & _).
      apply read_nothing in Hd; [|lia]. rewrite Hd, read_nil. reflexivity.
Qed.

Lemma carry_of_nil_inv (s : str) :
  carry_of s = [] -> s = [] \/ endswith_newline s = true.
Proof.
  destruct (last_newline s) as [H | (a & b & E & Hb)].
  - rewrite carry_of_whole by assumption. auto.
  - subst s. rewrite carry_of_after by assumption. intros ->.
    right. unfold endswith_newline.
    rewrite rev_app_distr. reflexivity.
Qed.

(** A non-empty file that does not end with a newline, and a chunk size
    other than 0: no pass leaves the loop. *)
Lemma open_line_keeps_running (fuel : nat) :
  chunk_size <> 0 -> falsy file = false -> endswith_newline file = false ->
  returned (split_chinked_lines fuel file chunk_size) = false.
Proof.
  intros Hcs Hne Hend.
  pose proof (while_true_invariant chunk_size (tracks file)
                (fun p w p' w' => tracks_continue chunk_size file p p' w w')
                fuel [] (opened file) (tracks_opened file)) as I.
  unfold split_chinked_lines.
  destruct (while_true fuel chunk_size [] (opened file)) as [w|p w];
    [|reflexivity].
  exfalso. destruct I as (p0 & w0 & (Hf & Hp & _) & Hb).
  apply body_break in Hb. destruct Hb as (-> & Hd & _).
  apply read_nothing in Hd; [|assumption].
  rewrite Hd, app_nil_r in Hf. rewrite Hf in Hp. symmetry in Hp.
  apply carry_of_nil_inv in Hp. destruct Hp as [-> | Hp].
  - discriminate.
  - congruence.
Qed.

(** With chunk size 0 the first read returns nothing, and the first
    pass leaves the loop without a hand-off, whatever the file. *)
Lemma zero_chunk_size_returns :
  split_chinked_lines 1 file 0
  = Returned (mkWorld file 0 [(0, Read 0)]).
Proof. reflexivity. Qed.

End Exhaustion.

(** ** Which files are read to their end *)

Section Reach.

Variable chunk_size : Z.
Variable file : str.

Lemma lines_fit_fits_from (n : Z) (ls : list str) :
  lines_fit n ls = fits_from n 0 ls.
Proof. destruct ls as [|l [|l' ls]]; reflexivity. Qed.

Lemma fits_from_cons (n cur : Z) (a : ascii) (l : str) (ls : list str) :
  fits_from n cur ((a :: l) :: ls) = fits_from n (cur + 1) (l :: ls).
Proof.
  assert (E : cur + len (a :: l) = cur + 1 + len l).
  { unfold len. simpl length. lia. }
  destruct ls; simpl; now rewrite E.
Qed.

(** When the lines fit, the line that the next unread character belongs
    to has fewer than [n] characters before that character. *)
Lemma fits_from_carry (n : Z) (c : ascii) (y x : str) :
  forall cur,
    0 <= cur -> fits_from n cur (lines (x ++ c :: y)) = true ->
    (if has_newline x then len (carry_of x) else cur + len x) < n.
Proof.
  induction x as [|a x IH]; intros cur Hcur H.
  - simpl has_newline. change (len []) with 0. simpl app in H.
    simpl lines in H. pose proof (lines_not_nil y) as Ny.
    destruct (lines y) as [|l ls]; [congruence|].
    destruct (Ascii.eqb c newline).
    + simpl in H. apply andb_prop in H. destruct H as [H _].
      change (len []) with 0 in H. lia.
    + rewrite fits_from_cons in H. pose proof (len_nonneg l).
      destruct ls; simpl in H; [|apply andb_prop in H; destruct H as [H _]];
        lia.
  - simpl app in H. simpl lines in H.
    pose proof (lines_not_nil (x ++ c :: y)) as Nx.
    destruct (lines (x ++ c :: y)) as [|l ls] eqn:EL; [congruence|].
    change (a :: x) with ([a] ++ x). rewrite carry_of_app.
    destruct (Ascii.eqb a newline) eqn:Ea.
    + apply Ascii.eqb_eq in Ea. subst a.
      simpl in H. apply andb_prop in H. destruct H as [_ H].
      specialize (IH 0 ltac:(lia)).
      rewrite <- lines_fit_fits_from in IH. specialize (IH H).
      change (has_newline ([newline] ++ x)) with true. cbv iota.
      destruct (has_newline x); [exact IH|].
      change (carry_of [newline]) with (@nil ascii). simpl app. lia.
    + rewrite fits_from_cons in H. specialize (IH (cur + 1) ltac:(lia) H).
      assert (Ex : has_newline ([a] ++ x) = has_newline x).
      { unfold has_newline.
        change (existsb (Ascii.eqb newline) ([a] ++ x))
          with (Ascii.eqb newline a || existsb (Ascii.eqb newline) x).
        now rewrite Ascii.eqb_sym, Ea. }
      rewrite Ex. destruct (has_newline x); [exact IH|].
      rewrite len_app. unfold len at 1. simpl length. lia.
Qed.

(** When the lines do not fit, some line of the file has [n] characters
    and more of the file after them. *)
Lemma fits_from_stall (n : Z) :
  forall s d ln,
    at_line_start d -> ~ In newline ln -> len ln <= n ->
    fits_from n (len ln) (lines s) = false ->
    exists pre run post,
      d ++ ln ++ s = pre ++ run ++ post /\ at_line_start pre /\
      ~ In newline run /\ len run = n /\ post <> [].
Proof.
  induction s as [|a s IH]; intros d ln Hd Hln Hlen H;
    pose proof (len_nonneg ln) as Hln0.
  - simpl in H. change (len []) with 0 in H. apply Z.leb_gt in H. lia.
  - destruct (Z.eq_dec (len ln) n) as [E | E].
    { exists d, ln, (a :: s). repeat split; trivial. discriminate. }
    simpl lines in H. pose proof (lines_not_nil s) as Ns.
    destruct (lines s) as [|l ls] eqn:EL; [congruence|].
    destruct (Ascii.eqb a newline) eqn:Ea.
    + apply Ascii.eqb_eq in Ea. subst a.
      simpl in H. change (len []) with 0 in H.
      destruct (len ln + 0 + 1 <=? n) eqn:E1; [|lia]. simpl in H.
      destruct (IH (d ++ ln ++ [newline]) []) as (pre & run & post & E2 & R).
      * right. rewrite app_assoc. apply endswith_newline_snoc.
      * simpl. tauto.
      * change (len []) with 0. lia.
      * change (len []) with 0. now rewrite ?EL, <- lines_fit_fits_from.
      * exists pre, run, post. split; [|exact R].
        rewrite <- E2, <- !app_assoc. reflexivity.
    + rewrite fits_from_cons in H.
      destruct (IH d (ln ++ [a])) as (pre & run & post & E2 & R).
      * exact Hd.
      * rewrite in_app_iff. simpl. apply Ascii.eqb_neq in Ea.
        intros [? | [? | ?]]; auto.
      * rewrite len_app. change (len [a]) with 1. lia.
      * rewrite len_app, ?EL. exact H.
      * exists pre, run, post. split; [|exact R].
        rewrite <- E2, <- !app_assoc. reflexivity.
Qed.

Lemma read_rest_shorter (size : Z) (u : str) :
  size <> 0 -> u <> [] -> (length (snd (read size u)) < length u)%nat.
Proof.
  intros Hs Hu. destruct u as [|c u]; [congruence|].
  unfold read. destruct (size <? 0) eqn:E; simpl snd.
  - simpl. lia.
  - rewrite length_skipn. simpl length. lia.
Qed.

(** If no pass asks for zero characters while the file has some left, as
    many passes as the file has characters read all of it. *)
Lemma exhausts_when :
  (forall p w, tracks file p w -> unread w <> [] ->
               chunk_size - len p <> 0) ->
  forall fuel p w,
    tracks file p w -> (length (unread w) <= fuel)%nat ->
    unread (world_of (while_true fuel chunk_size p w)) = [].
Proof.
  intros Hprog.
  induction fuel as [|fuel IH]; intros p w T Hlen; simpl.
  - destruct (unread w); [reflexivity | simpl in Hlen; lia].
  - destruct (body chunk_size p w) as [[p'|] w'] eqn:Hb.
    + apply IH; [eapply tracks_continue; eassumption|].
      apply body_continue in Hb. cbv zeta in Hb.
      destruct Hb as (_ & _ & -> & _).
      destruct (unread w) as [|c u] eqn:Eu.
      * rewrite read_nil. simpl. lia.
      * assert (Hs : chunk_size - len p <> 0).
        { apply (Hprog p w T). rewrite Eu. discriminate. }
        pose proof (read_rest_shorter _ (c :: u) Hs ltac:(discriminate)).
        lia.
    + simpl. apply body_break in Hb.
      destruct Hb as (-> & Hd & -> & _).
      destruct (unread w) as [|c u] eqn:Eu; [now rewrite read_nil|].
      assert (Hs : chunk_size - len [] <> 0).
      { apply (Hprog [] w T). rewrite Eu. discriminate. }
      change (len []) with 0 in Hs.
      apply read_nothing in Hd; [discriminate | lia].
Qed.

Lemma readable_reads_on (p : str) (w : world) :
  readable chunk_size file = true ->
  tracks file p w -> unread w <> [] -> chunk_size - len p <> 0.
Proof.
  unfold readable. intros R (Hf & Hp & _) Hu.
  pose proof (len_nonneg p).
  destruct (chunk_size <? 0) eqn:E; [lia|]. simpl in R.
  destruct (unread w) as [|c y]; [congruence|].
  rewrite lines_fit_fits_from, <- Hf in R.
  apply fits_from_carry in R; [|lia].
  destruct (has_newline (reassemble (emitted w))) eqn:N.
  - rewrite <- Hp in R. lia.
  - rewrite carry_of_whole in Hp by now apply has_newline_false.
    rewrite <- Hp in R. lia.
Qed.

(** No newline of the text read lies in a stretch that has none. *)
Lemma line_start_before (pre run post pre0 p u : str) :
  pre0 ++ p ++ u = pre ++ run ++ post -> ~ In newline run ->
  at_line_start pre0 ->
  (length (pre0 ++ p) <= length pre + length run)%nat ->
  (length pre0 <= length pre)%nat.
Proof.
  intros E Hrun [-> | H] Hlen; [simpl; lia|].
  apply endswith_newline_inv in H. destruct H as [q ->].
  destruct (Nat.le_gt_cases (length (q ++ [newline])) (length pre)) as [L | L];
    [exact L | exfalso].
  rewrite !length_app in *. simpl length in *.
  assert (N : nth_error (pre ++ run ++ post) (length q) = Some newline).
  { rewrite <- E, <- !app_assoc. rewrite nth_error_app2 by lia.
    now rewrite Nat.sub_diag. }
  rewrite nth_error_app2 in N by lia. rewrite nth_error_app1 in N by lia.
  apply nth_error_In in N. contradiction.
Qed.

(** A line of [chunk_size] characters with more of the file after it: the
    loop never reads past those characters. *)
Lemma stall_bounds_reading (pre run post : str) (fuel : nat) :
  0 <= chunk_size -> file = pre ++ run ++ post -> at_line_start pre ->
  ~ In newline run -> len run = chunk_size ->
  (length
     (reassemble
        (emitted (world_of (split_chinked_lines fuel file chunk_size))))
   <= length pre + length run)%nat.
Proof.
  intros Hcs Efile Hpre Hrun Lrun.
  set (bound := (length pre + length run)%nat).
  pose proof (while_true_invariant chunk_size
                (fun p w => tracks file p w /\ len p <= chunk_size /\
                            (length (reassemble (emitted w)) <= bound)%nat))
    as Inv.
  cbv beta in Inv.
  assert (Hstep : forall q v q' v',
             tracks file q v /\ len q <= chunk_size /\
             (length (reassemble (emitted v)) <= bound)%nat ->
             body chunk_size q v = (Some q', v') ->
             tracks file q' v' /\ len q' <= chunk_size /\
             (length (reassemble (emitted v')) <= bound)%nat).
  { intros q v q' v' (T & Hq & Hlen) Hb.
    pose proof (tracks_continue _ _ _ _ _ _ T Hb) as T'.
    split; [exact T'|].
    destruct T as (Hf & Ec & _). destruct T' as (Hf' & _).
    apply body_continue in Hb. cbv zeta in Hb.
    destruct Hb as (_ & -> & Hu & _).
    set (data := fst (read (chunk_size - len q) (unread v))) in *.
    pose proof (read_len (chunk_size - len q) (unread v)) as Hd.
    fold data in Hd. pose proof (len_nonneg q).
    split.
    - etransitivity; [apply carry_of_len|]. rewrite len_app. lia.
    - assert (E' : reassemble (emitted v')
                   = reassemble (emitted v) ++ data).
      { apply (app_inv_tail (unread v')). rewrite Hf', <- app_assoc.
        rewrite Hu. unfold data. now rewrite read_app. }
      destruct (carry_of_split (reassemble (emitted v)))
        as (pre0 & E0 & Hpre0).
      rewrite <- Ec in E0.
      assert (L0 : (length pre0 <= length pre)%nat).
      { apply (line_start_before pre run post pre0 q (unread v)); trivial.
        - rewrite app_assoc, <- E0, Hf. exact Efile.
        - rewrite <- E0. exact Hlen. }
      rewrite E', E0, !length_app. unfold bound, len in *. lia. }
  assert (H0 : tracks file [] (opened file) /\ len [] <= chunk_size /\
               (length (reassemble (emitted (opened file))) <= bound)%nat).
  { split; [apply tracks_opened|]. split; [exact Hcs | simpl; lia]. }
  specialize (Inv Hstep fuel [] (opened file) H0).
  unfold split_chinked_lines.
  destruct (while_true fuel chunk_size [] (opened file)) as [w|p w]; simpl.
  - destruct Inv as (p0 & w0 & (_ & _ & Hlen) & Hb).
    now rewrite (emitted_break _ _ _ _ Hb).
  - apply Inv.
Qed.

End Reach.

(** C1, as the loop has it.  For every file and chunk size the chunks
    handed over, each after the first without its leading carry-over, add
    up to the part of the file read so far.  When the chunk size is
    negative or every line of the file, counted with its newline when it
    has one, has at most [chunk_size] characters, that is the whole file
    after as many passes as the file has characters; otherwise the chunks
    never add up to the file. *)
Theorem reassembly_restores_file
    (chunk_size : Z) (file : str) (fuel : nat) :
  let w := world_of (split_chinked_lines fuel file chunk_size) in
  reassemble (emitted w) ++ unread w = file /\
  (readable chunk_size file = true -> (length file <= fuel)%nat ->
   unread w = [] /\ reassemble (emitted w) = file) /\
  (readable chunk_size file = false -> reassemble (emitted w) <> file).
Proof.
  intros w.
  pose proof (reassembled_prefix chunk_size file fuel) as P.
  cbv zeta in P. fold w in P.
  split; [exact P|]. split.
  - intros R Hlen.
    assert (U : unread w = []).
    { apply (exhausts_when chunk_size file
               (fun p v => readable_reads_on chunk_size file p v R)
               fuel [] (opened file));
        [apply tracks_opened | exact Hlen]. }
    split; [exact U|]. now rewrite U, app_nil_r in P.
  - unfold readable. intros R. apply orb_false_elim in R.
    destruct R as [Hcs R]. apply Z.ltb_ge in Hcs.
    rewrite lines_fit_fits_from in R.
    destruct (fits_from_stall chunk_size file [] [])
      as (pre & run & post & E & Hpre & Hrun & Lrun & Hpost);
      [now left | simpl; tauto | exact Hcs | exact R |].
    simpl in E.
    pose proof (stall_bounds_reading chunk_size file pre run post fuel
                  Hcs E Hpre Hrun Lrun) as B.
    fold w in B. intros Eq. rewrite Eq, E, !length_app in B.
    destruct post; [congruence | simpl in B; lia].
Qed.

Lemma reassembly_restores_file_witness :
  let w := world_of (split_chinked_lines 2 (lit "ab") 2) in
  readable 2 (lit "ab") = true /\ (length (lit "ab") <= 2)%nat /\
  unread w = [] /\ reassemble (emitted w) = lit "ab".
Proof.
  cbv zeta. split; [reflexivity|]. split; [simpl; lia|].
  apply (reassembly_restores_file 2 (lit "ab") 2); [reflexivity | simpl; lia].
Defined.

(** C1 as stated fails: a file of three letters without newline and chunk
    size 2.  Every pass hands over the first two letters, the third is
    never read, and no number of passes makes the chunks add up to the
    file. *)
Lemma reassembly_misses_long_line :
  ~ exists fuel,
      reassemble (emitted (world_of (split_chinked_lines fuel (lit "abc") 2)))
      = lit "abc".
Proof.
  intros [fuel H].
  pose proof (reassembled_prefix 2 (lit "abc") fuel) as P. cbv zeta in P.
  rewrite H in P.
  assert (U : unread (world_of (split_chinked_lines fuel (lit "abc") 2)) = []).
  { apply (app_inv_head (lit "abc")). now rewrite app_nil_r. }
  destruct fuel as [|n].
  - discriminate U.
  - destruct (stall_on_long_line 2 (lit "abc") n) as (w & Hrun & _ & _ & Hun);
      [lia | reflexivity | reflexivity |].
    rewrite Hrun in U. simpl in U. rewrite U in Hun. discriminate Hun.
Qed.

(** C2.  A non-empty file that does not end with a newline: the loop is
    still running after any number of passes; once the file has been read
    to its end, the carry is the trailing partial line of the file, it is
    not empty, and the next pass hands it to the clipboard again and
    leaves everything but the clock and the log as it was; and when every
    line is shorter than the chunk size the end of the file is reached
    after at most as many passes as the file has characters. *)
Theorem open_last_line_never_ends (chunk_size : Z) (file : str) :
  0 < chunk_size -> falsy file = false -> endswith_newline file = false ->
  (forall fuel, returned (split_chinked_lines fuel file chunk_size) = false) /\
  (forall fuel p w,
      split_chinked_lines fuel file chunk_size = Running p w ->
      unread w = [] ->
      p = carry_of file /\ p <> [] /\
      split_chinked_lines (S fuel) file chunk_size
      = Running p
          (mkWorld [] (clock w + 3)
             (log w ++
              stamped (clock w) (pass_events (chunk_size - len p) p)))) /\
  (lines_shorter chunk_size file = true ->
   forall fuel,
     (length file <= fuel)%nat ->
     unread (world_of (split_chinked_lines fuel file chunk_size)) = []).
Proof.
  intros Hcs Hne Hend. split; [|split].
  - intros fuel. apply open_line_keeps_running; trivial. lia.
  - intros fuel p w Hrun Hun.
    pose proof (run_tracks chunk_size file fuel) as T. rewrite Hrun in T.
    destruct T as (Hf & Hp & _). rewrite Hun, app_nil_r in Hf.
    rewrite Hf in Hp.
    assert (Np : p <> []).
    { intros E. rewrite E in Hp. symmetry in Hp.
      apply carry_of_nil_inv in Hp. destruct Hp as [-> | Hp].
      - discriminate.
      - congruence. }
    split; [exact Hp|]. split; [exact Np|].
    unfold split_chinked_lines in *.
    replace (S fuel) with (fuel + 1)%nat by lia.
    rewrite (while_true_add _ _ _ _ _ _ _ Hrun). simpl while_true.
    rewrite stalled_pass; [now rewrite Hun | exact Np | | now left].
    rewrite Hp. apply has_newline_false, carry_of_no_newline.
  - intros Hl fuel Hlen.
    apply (exhausts chunk_size file Hl fuel [] (opened file));
      [apply tracks_opened | exact Hlen].
Qed.

Lemma open_last_line_never_ends_witness :
  let file := lit "a" ++ [newline] ++ lit "bc" in
  0 < 4 /\ falsy file = false /\ endswith_newline file = false /\
  forall fuel, returned (split_chinked_lines fuel file 4) = false.
Proof.
  cbv zeta. split; [lia|]. split; [reflexivity|]. split; [reflexivity|].
  apply (open_last_line_never_ends 4 (lit "a" ++ [newline] ++ lit "bc"));
    [lia | reflexivity | reflexivity].
Defined.

(** ** Pacing *)

Section Pacing.

Lemma paced_tail (x : Z * event) (l : list (Z * event)) :
  paced (x :: l) -> paced l.
Proof.
  destruct x as [t e]. destruct e; simpl; tauto.
Qed.

Lemma paced_app (c : Z) (l l' : list (Z * event)) :
  paced l -> Forall (fun t => t + 3 <= c) (copy_times l) ->
  Forall (fun te => c <= fst te) l' -> paced l' ->
  paced (l ++ l').
Proof.
  intros Hl Hc Hl' Hp. induction l as [|[t e] l IH]; [exact Hp|].
  assert (IH' : paced (l ++ l')).
  { apply IH; [eapply paced_tail; eassumption|].
    destruct e; simpl in Hc; trivial. now inversion Hc. }
  destruct e; simpl; trivial.
  split; [|exact IH'].
  simpl in Hl, Hc. destruct Hl as [(later & -> & Hlater) _].
  exists (later ++ l'). split; [reflexivity|].
  apply Forall_app. split; [exact Hlater|].
  inversion Hc as [|? ? Ht _]; subst.
  eapply Forall_impl; [|exact Hl']. intros te Hte. cbv beta in *. lia.
Qed.

Lemma paced_at (before after : list (Z * event)) (t : Z) (text : str) :
  paced (before ++ (t, Copy text) :: after) ->
  exists later,
    after = (t, Print copied_message) :: (t, Sleep 3) :: later /\
    Forall (fun te => t + 3 <= fst te) later.
Proof.
  induction before as [|x before IH]; simpl.
  - tauto.
  - intros H. apply IH. eapply paced_tail. exact H.
Qed.

Variable chunk_size : Z.
Variable file : str.

(** The log of a run is paced, and every clipboard write in it started
    at least 3 before the present clock reading. *)
Lemma run_paced (fuel : nat) :
  let w := world_of (split_chinked_lines fuel file chunk_size) in
  paced (log w) /\ Forall (fun t => t + 3 <= clock w) (copy_times (log w)).
Proof.
  cbv zeta.
  pose proof (while_true_invariant chunk_size
                (fun _ w => paced (log w) /\
                            Forall (fun t => t + 3 <= clock w)
                              (copy_times (log w)))) as Inv.
  cbv beta in Inv.
  assert (Hstep : forall (q : str) v (q' : str) v',
             paced (log v) /\
             Forall (fun t => t + 3 <= clock v) (copy_times (log v)) ->
             body chunk_size q v = (Some q', v') ->
             paced (log v') /\
             Forall (fun t => t + 3 <= clock v') (copy_times (log v'))).
  { intros q v q' v' [Hp Hc] Hb. apply body_continue in Hb. cbv zeta in Hb.
    destruct Hb as (_ & _ & _ & -> & ->). split.
    - apply (paced_app (clock v)); trivial.
      + repeat constructor; simpl; lia.
      + simpl. split; [|exact I].
        eexists. split; [reflexivity | constructor].
    - rewrite copy_times_app. apply Forall_app. split.
      + eapply Forall_impl; [|exact Hc]. intros t Ht. cbv beta in *. lia.
      + simpl. repeat constructor. lia. }
  specialize (Inv Hstep fuel [] (opened file) (conj I (Forall_nil _))).
  unfold split_chinked_lines.
  destruct (while_true fuel chunk_size [] (opened file)) as [w|p w];
    simpl; [|exact Inv].
  destruct Inv as (p0 & w0 & [Hp Hc] & Hb).
  apply body_break in Hb. destruct Hb as (_ & _ & _ & -> & ->). split.
  - apply (paced_app (clock w0)); simpl; trivial.
    repeat constructor. simpl. lia.
  - rewrite copy_times_app. simpl. now rewrite app_nil_r.
Qed.

End Pacing.

(** C9.  On the clock that [time.sleep] advances, every hand-off to the
    clipboard is followed by the console message and the pause of 3, both
    at the clock reading of the hand-off, and whatever comes later comes at
    least 3 later; so any later hand-off comes at least 3 after it. *)
Theorem pause_between_hand_offs
    (chunk_size : Z) (file : str) (fuel : nat)
    (before after : list (Z * event)) (t1 : Z) (text1 : str) :
  log (world_of (split_chinked_lines fuel file chunk_size))
  = before ++ (t1, Copy text1) :: after ->
  (exists later,
      after = (t1, Print copied_message) :: (t1, Sleep 3) :: later /\
      Forall (fun te => t1 + 3 <= fst te) later) /\
  (forall between t2 text2 after',
      after = between ++ (t2, Copy text2) :: after' -> t1 + 3 <= t2).
Proof.
  intros E.
  pose proof (run_paced chunk_size file fuel) as [P _]. cbv zeta in P.
  rewrite E in P. apply paced_at in P.
  destruct P as (later & -> & Hlater).
  split; [now exists later|].
  intros between t2 text2 after' E2.
  assert (Hin : In (t2, Copy text2) later).
  { destruct between as [|x [|y between]]; simpl in E2; try discriminate.
    injection E2 as _ _ ->. apply in_or_app. right. now left. }
  rewrite Forall_forall in Hlater. exact (Hlater _ Hin).
Qed.

Lemma pause_between_hand_offs_witness :
  let first := lit "a" ++ [newline] ++ lit "b" ++ [newline] in
  let second := lit "c" ++ [newline] in
  let after :=
    [(0, Print copied_message); (0, Sleep 3); (3, Read 4);
     (3, Copy (decorate second)); (3, Print copied_message); (3, Sleep 3);
     (6, Read 4)] in
  log (world_of (split_chinked_lines 3 abc_lines 4))
  = [(0, Read 4)] ++ (0, Copy (decorate first)) :: after /\
  (exists later,
      after = (0, Print copied_message) :: (0, Sleep 3) :: later /\
      Forall (fun te => 0 + 3 <= fst te) later) /\
  (forall between t2 text2 after',
      after = between ++ (t2, Copy text2) :: after' -> 0 + 3 <= t2).
Proof.
  cbv zeta. split; [reflexivity|].
  eapply (pause_between_hand_offs 4 abc_lines 3 [(0, Read 4)]). reflexivity.
Defined.

(** * Further properties of the loop *)

(** ** The shape of a chunk *)

Section Shape.

Variable chunk_size : Z.
Variable file : str.

(** X1.  Every chunk handed to the clipboard is not empty, is one piece
    of the file, and begins where a line of the file begins, whatever the
    chunk size and the number of passes. *)
Theorem chunks_begin_at_line_starts (fuel : nat) :
  Forall (fun c => c <> [] /\
                   exists pre post,
                     file = pre ++ c ++ post /\ at_line_start pre)
    (emitted (world_of (split_chinked_lines fuel file chunk_size))).
Proof.
  set (shaped := fun c : str =>
                   c <> [] /\
                   exists pre post,
                     file = pre ++ c ++ post /\ at_line_start pre).
  pose proof (while_true_invariant chunk_size
                (fun p w => tracks file p w /\ Forall shaped (emitted w)))
    as Inv.
  cbv beta in Inv.
  assert (Hstep : forall q v q' v',
             tracks file q v /\ Forall shaped (emitted v) ->
             body chunk_size q v = (Some q', v') ->
             tracks file q' v' /\ Forall shaped (emitted v')).
  { intros q v q' v' [T F] Hb.
    split; [eapply tracks_continue; eassumption|].
    rewrite (emitted_continue _ _ _ _ _ Hb).
    apply Forall_app. split; [exact F|]. constructor; [|constructor].
    apply body_continue in Hb. cbv zeta in Hb. destruct Hb as (Hne & _).
    split; [exact Hne|].
    destruct T as (Hfile & Hq & _).
    destruct (carry_of_split (reassemble (emitted v))) as (pre & E & Hpre).
    rewrite <- Hq in E.
    exists pre, (snd (read (chunk_size - len q) (unread v))).
    split; [|exact Hpre].
    rewrite <- app_assoc, read_app, app_assoc, <- E. now symmetry. }
  specialize (Inv Hstep fuel [] (opened file)
                (conj (tracks_opened file) (Forall_nil _))).
  unfold split_chinked_lines.
  destruct (while_true fuel chunk_size [] (opened file)) as [w|p w]; simpl.
  - destruct Inv as (p0 & w0 & [_ F] & Hb).
    now rewrite (emitted_break _ _ _ _ Hb).
  - apply Inv.
Qed.

End Shape.

(** ** Reads and full chunks *)

Section Reads.

Variable chunk_size : Z.
Variable file : str.

(** A read of [size] characters returns that many, or all there is. *)
Lemma read_full_or_done (size : Z) (u : str) :
  0 <= size -> len (fst (read size u)) = size \/ snd (read size u) = [].
Proof.
  intros Hs. unfold read. destruct (size <? 0) eqn:E; [lia|]. simpl.
  destruct (Nat.le_gt_cases (Z.to_nat size) (length u)) as [H | H].
  - left. unfold len. rewrite length_firstn. lia.
  - right. apply skipn_all2. lia.
Qed.

(** X2.  With a chunk size that is not negative, every [f.read] asks for
    a number of characters from 0 to [chunk_size], never for the rest of
    the file, and the last chunk handed over has exactly [chunk_size]
    characters unless the file has been read to its end. *)
Theorem reads_in_range_and_chunks_full (fuel : nat) :
  0 <= chunk_size ->
  let o := split_chinked_lines fuel file chunk_size in
  Forall (fun n => 0 <= n <= chunk_size) (read_sizes (log (world_of o))) /\
  (emitted (world_of o) = [] \/
   len (last (emitted (world_of o)) []) = chunk_size \/
   unread (world_of o) = []).
Proof.
  intros Hcs. cbv zeta.
  set (in_range := fun n : Z => 0 <= n <= chunk_size).
  pose proof (while_true_invariant chunk_size
                (fun p w =>
                   len p <= chunk_size /\
                   Forall in_range (read_sizes (log w)) /\
                   (emitted w = [] \/
                    len (last (emitted w) []) = chunk_size \/
                    unread w = []))) as Inv.
  cbv beta in Inv.
  assert (Hstep : forall q v q' v',
             len q <= chunk_size /\
             Forall in_range (read_sizes (log v)) /\
             (emitted v = [] \/
              len (last (emitted v) []) = chunk_size \/ unread v = []) ->
             body chunk_size q v = (Some q', v') ->
             len q' <= chunk_size /\
             Forall in_range (read_sizes (log v')) /\
             (emitted v' = [] \/
              len (last (emitted v') []) = chunk_size \/ unread v' = [])).
  { intros q v q' v' (Hq & F & _) Hb.
    rewrite (emitted_continue _ _ _ _ _ Hb), last_last.
    apply body_continue in Hb. cbv zeta in Hb.
    destruct Hb as (_ & -> & -> & _ & ->).
    pose proof (len_nonneg q) as Hq0.
    pose proof (read_len (chunk_size - len q) (unread v)) as Hr.
    pose proof (read_full_or_done (chunk_size - len q) (unread v)) as Hf.
    split; [|split].
    - etransitivity; [apply carry_of_len|]. rewrite len_app. lia.
    - rewrite read_sizes_app. apply Forall_app. split; [exact F|].
      simpl. constructor; [unfold in_range; lia | constructor].
    - right. rewrite len_app. destruct Hf as [Hf | Hf]; [lia | left | right];
        [lia | exact Hf]. }
  assert (H0 : len [] <= chunk_size /\
               Forall in_range (read_sizes (log (opened file))) /\
               (emitted (opened file) = [] \/
                len (last (emitted (opened file)) []) = chunk_size \/
                unread (opened file) = [])).
  { split; [exact Hcs|]. split; [constructor | now left]. }
  specialize (Inv Hstep fuel [] (opened file) H0).
  unfold split_chinked_lines.
  destruct (while_true fuel chunk_size [] (opened file)) as [w|p w]; simpl.
  - destruct Inv as (p0 & w0 & (_ & F & Hlast) & Hb).
    rewrite (emitted_break _ _ _ _ Hb).
    apply body_break in Hb. destruct Hb as (_ & Hd & Hu & _ & ->).
    split.
    + rewrite read_sizes_app. apply Forall_app. split; [exact F|].
      simpl. constructor; [unfold in_range; lia | constructor].
    + destruct Hlast as [H | [H | H]]; auto.
      right. right. rewrite Hu, H. now rewrite read_nil.
  - destruct Inv as (_ & F & Hlast). now split.
Qed.

End Reads.

Lemma reads_in_range_and_chunks_full_witness :
  let o := split_chinked_lines 2 abc_lines 4 in
  0 <= 4 /\
  Forall (fun n => 0 <= n <= 4) (read_sizes (log (world_of o))) /\
  (emitted (world_of o) = [] \/
   len (last (emitted (world_of o)) []) = 4 \/
   unread (world_of o) = []).
Proof.
  cbv zeta. split; [lia|].
  apply (reads_in_range_and_chunks_full 4 abc_lines 2). lia.
Defined.

(** ** The clock *)

Section Clock.

Variable chunk_size : Z.
Variable file : str.

(** X3.  On the clock that [time.sleep] advances, the chunks are handed
    over at 0, 3, 6 and so on, and the clock ends 3 after the last
    hand-off: a run costs a pause of 3 for every chunk, the last one
    included. *)
Theorem hand_off_times (fuel : nat) :
  let w := world_of (split_chinked_lines fuel file chunk_size) in
  copy_times (log w)
  = map (fun k => 3 * Z.of_nat k) (seq 0 (length (emitted w))) /\
  clock w = 3 * Z.of_nat (length (emitted w)).
Proof.
  cbv zeta.
  set (times := fun n => map (fun k => 3 * Z.of_nat k) (seq 0 n)).
  pose proof (while_true_invariant chunk_size
                (fun _ w =>
                   copy_times (log w) = times (length (emitted w)) /\
                   clock w = 3 * Z.of_nat (length (emitted w)))) as Inv.
  cbv beta in Inv.
  assert (Hstep : forall (q : str) v (q' : str) v',
             copy_times (log v) = times (length (emitted v)) /\
             clock v = 3 * Z.of_nat (length (emitted v)) ->
             body chunk_size q v = (Some q', v') ->
             copy_times (log v') = times (length (emitted v')) /\
             clock v' = 3 * Z.of_nat (length (emitted v'))).
  { intros q v q' v' [Ht Hc] Hb.
    rewrite (emitted_continue _ _ _ _ _ Hb), length_app. simpl length.
    apply body_continue in Hb. cbv zeta in Hb.
    destruct Hb as (_ & _ & _ & -> & ->). split; [|lia].
    rewrite copy_times_app, Ht, Nat.add_1_r. unfold times.
    rewrite seq_S, map_app. simpl. now rewrite Hc. }
  specialize (Inv Hstep fuel [] (opened file) (conj eq_refl eq_refl)).
  unfold split_chinked_lines.
  destruct (while_true fuel chunk_size [] (opened file)) as [w|p w];
    simpl; [|exact Inv].
  destruct Inv as (p0 & w0 & [Ht Hc] & Hb).
  rewrite (emitted_break _ _ _ _ Hb).
  apply body_break in Hb. destruct Hb as (_ & _ & _ & -> & ->).
  rewrite copy_times_app. simpl. rewrite app_nil_r. now split.
Qed.

(** A loop that is still running has handed over one chunk per pass; one
    that has left has handed over fewer chunks than passes allowed. *)
Lemma run_count (fuel : nat) :
  match split_chinked_lines fuel file chunk_size with
  | Running _ w => length (emitted w) = fuel
  | Returned w => (length (emitted w) < fuel)%nat
  end.
Proof.
  unfold split_chinked_lines.
  assert (G : forall fuel p w,
             match while_true fuel chunk_size p w with
             | Running _ w' =>
                 length (emitted w') = (length (emitted w) + fuel)%nat
             | Returned w' =>
                 (length (emitted w') < length (emitted w) + fuel)%nat
             end).
  { clear fuel. induction fuel as [|fuel IH]; intros p w; simpl; [lia|].
    destruct (body chunk_size p w) as [[p'|] w'] eqn:Hb.
    - specialize (IH p' w'). rewrite (emitted_continue _ _ _ _ _ Hb) in IH.
      rewrite length_app in IH. simpl in IH.
      destruct (while_true fuel chunk_size p' w'); lia.
    - rewrite (emitted_break _ _ _ _ Hb). lia. }
  apply (G fuel [] (opened file)).
Qed.

End Clock.

(** ** Leaving the loop *)

Section Leaving.

Variable chunk_size : Z.
Variable file : str.

Lemma carry_of_terminated (s : str) :
  falsy s = true \/ endswith_newline s = true -> carry_of s = [].
Proof.
  intros [H | H].
  - apply falsy_nil in H. now subst s.
  - apply endswith_newline_inv in H. destruct H as [s' ->].
    apply carry_of_after. simpl. tauto.
Qed.

(** A loop that has left read the file to its end, and the file is empty
    or ends with a newline, if only the chunk size is not 0. *)
Lemma returned_at_end (fuel : nat) (w : world) :
  chunk_size <> 0 ->
  split_chinked_lines fuel file chunk_size = Returned w ->
  unread w = [] /\ (falsy file = true \/ endswith_newline file = true).
Proof.
  intros Hcs Hrun.
  pose proof (while_true_invariant chunk_size (tracks file)
                (fun p w p' w' => tracks_continue chunk_size file p p' w w')
                fuel [] (opened file) (tracks_opened file)) as Inv.
  unfold split_chinked_lines in Hrun. rewrite Hrun in Inv.
  destruct Inv as (p0 & w0 & (Hf & Hp & _) & Hb).
  apply body_break in Hb. destruct Hb as (-> & Hd & -> & _).
  apply read_nothing in Hd; [|assumption].
  rewrite Hd, read_nil. split; [reflexivity|].
  rewrite Hd, app_nil_r in Hf. rewrite Hf in Hp. symmetry in Hp.
  apply carry_of_nil_inv in Hp. destruct Hp as [-> | Hp]; auto.
Qed.

(** A pass that starts with nothing pending at the end of the file leaves
    the loop. *)
Lemma final_pass (w : world) :
  unread w = [] ->
  body chunk_size [] w
  = (None, mkWorld [] (clock w) (log w ++ [(clock w, Read chunk_size)])).
Proof.
  intros Hu. rewrite body_unfold. cbv zeta. rewrite Hu, read_nil.
  change (len []) with 0. now rewrite Z.sub_0_r.
Qed.

(** When every line is shorter than the chunk size and the file is empty
    or ends with a newline, one pass more than the file has characters is
    enough for the loop to leave, with the whole file read. *)
Lemma returns_within :
  lines_shorter chunk_size file = true ->
  falsy file = true \/ endswith_newline file = true ->
  exists w,
    (forall extra,
        split_chinked_lines (S (length file) + extra) file chunk_size
        = Returned w) /\
    unread w = [] /\ (length (emitted w) <= length file)%nat.
Proof.
  intros Hl Hend.
  pose proof (exhausts chunk_size file Hl (length file) [] (opened file)
                (tracks_opened file) (le_n _)) as Hu.
  pose proof (run_tracks chunk_size file (length file)) as T.
  pose proof (run_count chunk_size file (length file)) as C.
  unfold split_chinked_lines in *.
  destruct (while_true (length file) chunk_size [] (opened file))
    as [w|p w] eqn:Hrun; simpl in Hu.
  - exists w. split; [|split; [exact Hu | lia]].
    intros extra. replace (S (length file) + extra)%nat
      with (length file + S extra)%nat by lia.
    now apply while_true_returned.
  - destruct T as (Hf & Hp & _). rewrite Hu, app_nil_r in Hf.
    rewrite Hf, (carry_of_terminated file Hend) in Hp. subst p.
    eexists. split; [|split].
    + intros extra. replace (S (length file) + extra)%nat
        with (length file + S extra)%nat by lia.
      rewrite (while_true_add _ _ _ _ _ _ _ Hrun). simpl while_true.
      rewrite (final_pass w Hu). reflexivity.
    + reflexivity.
    + unfold emitted in *. simpl log. rewrite copies_app. simpl.
      rewrite app_nil_r. lia.
Qed.

End Leaving.

(** ** Chunk sizes below 1 *)

Section Degenerate.

Variable file : str.

(** With a negative chunk size the first read takes the whole file. *)
Lemma negative_chunk_size_first_pass (chunk_size : Z) :
  chunk_size < 0 -> falsy file = false ->
  split_chinked_lines 1 file chunk_size
  = Running (carry_of file)
      (mkWorld [] 3 (stamped 0 (pass_events chunk_size file))).
Proof.
  intros Hcs Hne. unfold split_chinked_lines. simpl while_true.
  rewrite body_unfold. cbv zeta. unfold opened. simpl unread.
  change (len []) with 0. rewrite Z.sub_0_r. unfold read.
  destruct (chunk_size <? 0) eqn:E; [|lia]. simpl fst; simpl snd.
  rewrite app_nil_l, Hne. reflexivity.
Qed.

End Degenerate.

(** ** Lines are not split *)

Section WholeLines.

Variable chunk_size : Z.
Variable file : str.

Lemma endswith_newline_app (a u : str) :
  u <> [] -> endswith_newline (a ++ u) = true -> endswith_newline u = true.
Proof.
  unfold endswith_newline. rewrite rev_app_distr. intros Hu.
  destruct (rev u) as [|c r] eqn:E; [|trivial].
  exfalso. apply Hu. rewrite <- (rev_involutive u), E. reflexivity.
Qed.

(** A line with its newline does not reach past a newline. *)
Lemma line_not_across (l u y : str) :
  ~ In newline l -> l ++ [newline] = u ++ y ->
  endswith_newline u = true -> y = [].
Proof.
  intros Hl E Hu. apply endswith_newline_inv in Hu. destruct Hu as [u' ->].
  rewrite <- app_assoc in E. simpl in E.
  apply app_eq_app in E. destruct E as (z & [[E1 E2] | [E1 E2]]).
  - destruct z as [|c z].
    + simpl in E2. now injection E2.
    + simpl in E2. injection E2 as <- _. exfalso. apply Hl. rewrite E1.
      apply in_or_app. right. now left.
  - destruct z as [|c z].
    + simpl in E2. now injection E2.
    + simpl in E2. injection E2 as _ E2. now destruct z.
Qed.

(** What a continuing pass adds to the text put together. *)
Lemma reassemble_continue (p p' : str) (w w' : world) :
  tracks file p w -> body chunk_size p w = (Some p', w') ->
  reassemble (emitted w')
  = reassemble (emitted w) ++ fst (read (chunk_size - len p) (unread w)).
Proof.
  intros (_ & _ & Hc) Hb. rewrite (emitted_continue _ _ _ _ _ Hb).
  unfold reassemble. rewrite reassemble_from_snoc, <- Hc.
  rewrite skipn_app, skipn_all, Nat.sub_diag, app_nil_l. reflexivity.
Qed.

(** Every line that ends in the part of the file read so far lies whole,
    with its newline, in one of the chunks handed over. *)
Lemma lines_kept (fuel : nat) :
  let w := world_of (split_chinked_lines fuel file chunk_size) in
  forall a l rest,
    reassemble (emitted w) = a ++ l ++ newline :: rest ->
    at_line_start a -> ~ In newline l ->
    Exists (holds_line l) (emitted w).
Proof.
  cbv zeta.
  set (kept := fun w : world =>
                 forall a l rest,
                   reassemble (emitted w) = a ++ l ++ newline :: rest ->
                   at_line_start a -> ~ In newline l ->
                   Exists (holds_line l) (emitted w)).
  pose proof (while_true_invariant chunk_size
                (fun p w => tracks file p w /\ kept w)) as Inv.
  cbv beta in Inv.
  assert (Hstep : forall q v q' v',
             tracks file q v /\ kept v ->
             body chunk_size q v = (Some q', v') ->
             tracks file q' v' /\ kept v').
  { intros q v q' v' [T K] Hb.
    split; [eapply tracks_continue; eassumption|].
    intros a l rest E Ha Hl.
    rewrite (reassemble_continue _ _ _ _ T Hb) in E.
    rewrite (emitted_continue _ _ _ _ _ Hb).
    set (data := fst (read (chunk_size - len q) (unread v))) in *.
    apply Exists_app.
    assert (Old : forall z, reassemble (emitted v) = a ++ l ++ newline :: z ->
                       Exists (holds_line l) (emitted v)).
    { intros z Ez. now apply (K a l z). }
    destruct T as (_ & Hq & _).
    destruct (carry_of_split (reassemble (emitted v))) as (pre & Ec & Hpre).
    rewrite <- Hq in Ec.
    assert (New : forall u z, q ++ z = u ++ l ++ [newline] ->
                         data = z ++ rest ->
                         Exists (holds_line l) [q ++ data]).
    { intros u z Eu Ed. constructor. exists u, rest.
      rewrite Ed, app_assoc, Eu, <- !app_assoc. reflexivity. }
    change (a ++ l ++ newline :: rest)
      with (a ++ l ++ [newline] ++ rest) in E.
    rewrite !app_assoc in E. apply app_eq_app in E.
    destruct E as (z & [[E1 E2] | [E1 E2]]).
    - left. apply (Old z). rewrite E1, <- !app_assoc. reflexivity.
    - pose proof E1 as E0. rewrite Ec, <- !app_assoc in E1.
      apply app_eq_app in E1. destruct E1 as (u & [[E3 E4] | [E3 E4]]).
      + right. now apply (New u z).
      + destruct u as [|c u].
        * right. apply (New [] z); [now symmetry | exact E2].
        * destruct Hpre as [-> | Hpre]; [now destruct a|].
          rewrite E3 in Hpre.
          apply endswith_newline_app in Hpre; [|discriminate].
          pose proof (line_not_across l (c :: u) (q ++ z) Hl E4 Hpre) as N.
          apply app_eq_nil in N. destruct N as [_ ->].
          left. apply (Old []). rewrite app_nil_r in E0.
          rewrite <- E0, <- app_assoc. reflexivity. }
  assert (K0 : kept (opened file)).
  { intros a l rest E.
    change (reassemble (emitted (opened file))) with (@nil ascii) in E.
    symmetry in E. apply app_eq_nil in E. destruct E as [_ E].
    apply app_eq_nil in E. destruct E as [_ E]. discriminate E. }
  specialize (Inv Hstep fuel [] (opened file) (conj (tracks_opened file) K0)).
  unfold split_chinked_lines.
  destruct (while_true fuel chunk_size [] (opened file)) as [w|p w]; simpl.
  - destruct Inv as (p0 & w0 & [_ K] & Hb).
    rewrite (emitted_break _ _ _ _ Hb). exact K.
  - apply Inv.
Qed.

End WholeLines.

(** X4.  When the function returns, with a chunk size other than 0, the
    file has been read to its end, the chunks handed over add up to the
    file, and the file is empty or ends with a newline. *)
Theorem returned_means_delivered
    (chunk_size : Z) (file : str) (fuel : nat) (w : world) :
  chunk_size <> 0 ->
  split_chinked_lines fuel file chunk_size = Returned w ->
  unread w = [] /\ reassemble (emitted w) = file /\
  (falsy file = true \/ endswith_newline file = true).
Proof.
  intros Hcs Hrun.
  destruct (returned_at_end chunk_size file fuel w Hcs Hrun) as [Hu Hend].
  split; [exact Hu|]. split; [|exact Hend].
  pose proof (reassembled_prefix chunk_size file fuel) as P. cbv zeta in P.
  rewrite Hrun in P. simpl in P. now rewrite Hu, app_nil_r in P.
Qed.

Lemma returned_means_delivered_witness :
  let w := world_of (split_chinked_lines 3 abc_lines 4) in
  4 <> 0 /\ split_chinked_lines 3 abc_lines 4 = Returned w /\
  unread w = [] /\ reassemble (emitted w) = abc_lines /\
  (falsy abc_lines = true \/ endswith_newline abc_lines = true).
Proof.
  cbv zeta. split; [lia|]. split; [reflexivity|].
  apply (returned_means_delivered 4 abc_lines 3); [lia | reflexivity].
Defined.

(** X5.  When every line of the file is shorter than the chunk size and
    the file is empty or ends with a newline, the function returns: one
    pass more than the file has characters is enough, more passes change
    nothing, the chunks handed over add up to the file, and there are no
    more of them than the file has characters. *)
Theorem terminated_file_returns (chunk_size : Z) (file : str) :
  lines_shorter chunk_size file = true ->
  falsy file = true \/ endswith_newline file = true ->
  exists w,
    (forall extra,
        split_chinked_lines (S (length file) + extra) file chunk_size
        = Returned w) /\
    reassemble (emitted w) = file /\
    (length (emitted w) <= length file)%nat.
Proof.
  intros Hl Hend.
  destruct (returns_within chunk_size file Hl Hend) as (w & Hrun & Hu & Hn).
  exists w. split; [exact Hrun|]. split; [|exact Hn].
  pose proof (reassembled_prefix chunk_size file (S (length file) + 0)) as P.
  cbv zeta in P. rewrite (Hrun 0%nat) in P. simpl in P.
  now rewrite Hu, app_nil_r in P.
Qed.

Lemma terminated_file_returns_witness :
  lines_shorter 4 abc_lines = true /\
  (falsy abc_lines = true \/ endswith_newline abc_lines = true) /\
  exists w,
    (forall extra,
        split_chinked_lines (S (length abc_lines) + extra) abc_lines 4
        = Returned w) /\
    reassemble (emitted w) = abc_lines /\
    (length (emitted w) <= length abc_lines)%nat.
Proof.
  split; [reflexivity|]. split; [right; reflexivity|].
  apply (terminated_file_returns 4 abc_lines);
    [reflexivity | right; reflexivity].
Defined.

(** X6.  No line is split: a line that ends in the part of the file read
    so far lies whole, with its newline, in one of the chunks handed
    over; when every line is shorter than the chunk size, as many passes
    as the file has characters put every line of the file that ends with
    a newline whole into some chunk. *)
Theorem lines_are_not_split
    (chunk_size : Z) (file : str) (fuel : nat) (a l rest : str) :
  at_line_start a -> has_newline l = false ->
  let w := world_of (split_chinked_lines fuel file chunk_size) in
  (reassemble (emitted w) = a ++ l ++ newline :: rest ->
   Exists (holds_line l) (emitted w)) /\
  (lines_shorter chunk_size file = true -> (length file <= fuel)%nat ->
   file = a ++ l ++ newline :: rest ->
   Exists (holds_line l) (emitted w)).
Proof.
  intros Ha Hl w. apply has_newline_false in Hl.
  pose proof (lines_kept chunk_size file fuel) as K. cbv zeta in K. fold w in K.
  split.
  - intros E. now apply (K a l rest).
  - intros Hs Hlen E. apply (K a l rest); trivial.
    pose proof (reassembled_prefix chunk_size file fuel) as P.
    cbv zeta in P. fold w in P.
    assert (U : unread w = []).
    { apply (exhausts chunk_size file Hs fuel [] (opened file));
        [apply tracks_opened | exact Hlen]. }
    rewrite U, app_nil_r in P. now rewrite P.
Qed.

Lemma lines_are_not_split_witness :
  let w := world_of (split_chinked_lines 6 abc_lines 4) in
  at_line_start (lit "a" ++ [newline]) /\ has_newline (lit "b") = false /\
  lines_shorter 4 abc_lines = true /\
  abc_lines
  = (lit "a" ++ [newline]) ++ lit "b" ++ newline :: lit "c" ++ [newline] /\
  Exists (holds_line (lit "b")) (emitted w).
Proof.
  cbv zeta. split; [right; reflexivity|]. split; [reflexivity|].
  split; [reflexivity|]. split; [reflexivity|].
  apply (lines_are_not_split 4 abc_lines 6 (lit "a" ++ [newline]) (lit "b")
           (lit "c" ++ [newline]));
    [right; reflexivity | reflexivity | reflexivity | simpl; lia
     | reflexivity].
Defined.

(** X7.  A negative chunk size switches the chunking off: the first read
    takes the whole file, the first chunk is the whole file, longer than
    the chunk size, and the carry is the trailing partial line of the
    file. *)
Theorem negative_chunk_size_reads_all (chunk_size : Z) (file : str) :
  chunk_size < 0 -> falsy file = false ->
  exists w,
    split_chinked_lines 1 file chunk_size = Running (carry_of file) w /\
    emitted w = [file] /\ read_sizes (log w) = [chunk_size] /\
    unread w = [] /\ chunk_size < len file.
Proof.
  intros Hcs Hne. eexists. split.
  - now apply negative_chunk_size_first_pass.
  - unfold emitted. simpl. rewrite undecorate_decorate.
    pose proof (len_nonneg file). repeat split. lia.
Qed.

Lemma negative_chunk_size_reads_all_witness :
  -1 < 0 /\ falsy abc_lines = false /\
  exists w,
    split_chinked_lines 1 abc_lines (-1) = Running (carry_of abc_lines) w /\
    emitted w = [abc_lines] /\ read_sizes (log w) = [-1] /\
    unread w = [] /\ -1 < len abc_lines.
Proof.
  split; [lia|]. split; [reflexivity|].
  apply (negative_chunk_size_reads_all (-1) abc_lines); [lia | reflexivity].
Defined.

(** X8.  The program: when the file under the path of the [__main__]
    block has lines shorter than the default chunk size and is empty or
    ends with a newline, the call returns, the chunks handed over add up
    to the file, and no text handed to the clipboard is longer than 2000
    characters. *)
Theorem main_delivers_file (fs : string -> option str) (text : str) :
  fs script_path = Some text ->
  lines_shorter default_chunk_size text = true ->
  falsy text = true \/ endswith_newline text = true ->
  exists w,
    (forall extra,
        main (S (length text) + extra) fs = Entered (Returned w)) /\
    reassemble (emitted w) = text /\
    Forall (fun t => len t <= 2000) (copies (log w)).
Proof.
  intros Hfs Hl Hend.
  destruct (returns_within default_chunk_size text Hl Hend)
    as (w & Hrun & Hu & _).
  exists w. split; [|split].
  - intros extra. unfold main. now rewrite Hfs, Hrun.
  - pose proof (reassembled_prefix default_chunk_size text
                  (S (length text) + 0)) as P.
    cbv zeta in P. rewrite (Hrun 0%nat) in P. simpl in P.
    now rewrite Hu, app_nil_r in P.
  - pose proof (copies_decorated default_chunk_size text
                  (S (length text) + 0)) as D.
    pose proof (chunks_fit default_chunk_size text (S (length text) + 0)) as F.
    cbv zeta in D. rewrite (Hrun 0%nat) in D, F. simpl in D, F.
    rewrite D. apply Forall_map.
    eapply Forall_impl; [|apply F; unfold default_chunk_size; lia].
    intros c Hc. cbv beta in Hc. rewrite len_decorate.
    unfold default_chunk_size in Hc. lia.
Qed.

Lemma main_delivers_file_witness :
  let fs := fun _ : string => Some abc_lines in
  fs script_path = Some abc_lines /\
  lines_shorter default_chunk_size abc_lines = true /\
  exists w,
    (forall extra,
        main (S (length abc_lines) + extra) fs = Entered (Returned w)) /\
    reassemble (emitted w) = abc_lines /\
    Forall (fun t => len t <= 2000) (copies (log w)).
Proof.
  cbv zeta. split; [reflexivity|]. split; [reflexivity|].
  apply (main_delivers_file (fun _ => Some abc_lines) abc_lines);
    [reflexivity | reflexivity | right; reflexivity].
Defined.

(** X9.  When every line of the file is shorter than the chunk size, no
    read asks for zero characters: every [f.read] asks for at least one
    character and at most [chunk_size], so no pass stalls on the carry
    while the file has characters left. *)
Theorem short_lines_keep_reading
    (chunk_size : Z) (file : str) (fuel : nat) :
  lines_shorter chunk_size file = true ->
  Forall (fun n => 1 <= n <= chunk_size)
    (read_sizes (log (world_of (split_chinked_lines fuel file chunk_size)))).
Proof.
  intros Hl. pose proof (lines_shorter_positive _ _ Hl) as Hcs.
  set (progress := fun n : Z => 1 <= n <= chunk_size).
  pose proof (while_true_invariant chunk_size
                (fun p w => tracks file p w /\
                            Forall progress (read_sizes (log w)))) as Inv.
  cbv beta in Inv.
  assert (Hstep : forall q v q' v',
             tracks file q v /\ Forall progress (read_sizes (log v)) ->
             body chunk_size q v = (Some q', v') ->
             tracks file q' v' /\ Forall progress (read_sizes (log v'))).
  { intros q v q' v' [T F] Hb.
    split; [eapply tracks_continue; eassumption|].
    assert (Hq : len q < chunk_size).
    { destruct T as (Hf & -> & _). apply (carry_shorter _ _ (unread v)).
      now rewrite Hf. }
    pose proof (len_nonneg q).
    apply body_continue in Hb. cbv zeta in Hb.
    destruct Hb as (_ & _ & _ & _ & ->).
    rewrite read_sizes_app. apply Forall_app. split; [exact F|].
    simpl. constructor; [unfold progress; lia | constructor]. }
  specialize (Inv Hstep fuel [] (opened file)
                (conj (tracks_opened file) (Forall_nil _))).
  unfold split_chinked_lines.
  destruct (while_true fuel chunk_size [] (opened file)) as [w|p w]; simpl.
  - destruct Inv as (p0 & w0 & [_ F] & Hb).
    apply body_break in Hb. destruct Hb as (_ & _ & _ & _ & ->).
    rewrite read_sizes_app. apply Forall_app. split; [exact F|].
    simpl. constructor; [unfold progress; lia | constructor].
  - apply Inv.
Qed.

Lemma short_lines_keep_reading_witness :
  lines_shorter 4 abc_lines = true /\
  Forall (fun n => 1 <= n <= 4)
    (read_sizes (log (world_of (split_chinked_lines 3 abc_lines 4)))).
Proof.
  split; [reflexivity|].
  apply (short_lines_keep_reading 4 abc_lines 3). reflexivity.
Defined.
